(** * Adaptive frequency selection (freqselect.py)

    A shallow embedding of [get_new_freq] and of the refinement loop of
    [design_freq_range], over the real numbers.

    - NumPy arrays are lists; a complex number is a record of two reals.
    - Python exceptions are the [Raise] branch of [result].
    - Arithmetic is exact (type [R]); the one place where the source divides
      by a number that can be zero, the quotient is an [npfloat], which keeps
      the IEEE outcomes [inf] and [nan] of NumPy's division apart from the
      finite ones.
    - Lines 599-620 of [get_new_freq] are embedded a second time on IEEE
      doubles ([PrimFloat]), for what depends on rounding.
    - [scipy.interpolate.pchip_interpolate], [empymod.dipole] and
      [empymod.model.tem] are external: they are variables of the sections
      below. *)

From Corelib Require Import PrimFloat.
From Stdlib Require Import Reals List Lra Lia PeanoNat Bool Sorted ZArith.
From Stdlib Require String.
Import ListNotations.
Import String.StringSyntax.
Open Scope R_scope.

(** ** Exceptions *)

Inductive exn : Type := ValueError | IndexError.

Inductive result (A : Type) : Type :=
| Ok (a : A)
| Raise (e : exn).

Arguments Ok {A} a.
Arguments Raise {A} e.

Definition bind {A B : Type} (m : result A) (k : A -> result B) : result B :=
  match m with
  | Ok a => k a
  | Raise e => Raise e
  end.

Notation "x <- m ;; k" := (bind m (fun x => k))
  (at level 61, m at next level, right associativity).
Notation "' p <- m ;; k" := (bind m (fun x => match x with p => k end))
  (at level 61, p pattern, m at next level, right associativity).

(** [for i in idx: s = body(s, i)], stopping at the first exception. *)
Fixpoint for_each {S : Type} (body : S -> nat -> result S) (idx : list nat) (s : S)
  : result S :=
  match idx with
  | [] => Ok s
  | i :: rest => s' <- body s i ;; for_each body rest s'
  end.

Fixpoint mapM {A B : Type} (f : A -> result B) (l : list A) : result (list B) :=
  match l with
  | [] => Ok []
  | a :: t => b <- f a ;; bs <- mapM f t ;; Ok (b :: bs)
  end.

(** ** Numbers *)

Record complex : Type := mkC { re : R; im : R }.

Definition C0 : complex := mkC 0 0.

(** [np.abs] of a complex number. *)
Definition Cabs (z : complex) : R := sqrt (re z * re z + im z * im z).

(** [a * z] for a real [a]. *)
Definition Cscale (a : R) (z : complex) : complex := mkC (a * re z) (a * im z).

(** [1j * v] for a real [v]. *)
Definition Cimag (v : R) : complex := mkC 0 v.

(** [np.log10] and [10**y] as the real functions: there is no rounding, and
    [log10] is meant for positive arguments (NumPy gives [-inf] or nan at
    the others). *)
Definition log10 (x : R) : R := ln x / ln 10.
Definition pow10 (y : R) : R := exp (y * ln 10).

(** The outcome of a NumPy floating-point division: finite, infinite or nan. *)
Inductive npfloat : Type :=
| Fin (r : R)
| PInf
| NInf
| NaN.

(** [a / b] for a divisor [b >= 0] (here the maximum of magnitudes):
    [0/0] is nan and [a/0] is an infinity of the sign of [a]. *)
Definition np_div (a b : R) : npfloat :=
  if Req_dec_T b 0 then
    if Req_dec_T a 0 then NaN
    else if Rlt_dec 0 a then PInf else NInf
  else Fin (a / b).

Definition np_abs (x : npfloat) : npfloat :=
  match x with
  | Fin r => Fin (Rabs r)
  | PInf | NInf => PInf
  | NaN => NaN
  end.

(** [x > r]: every comparison with nan is false. *)
Definition np_gt (x : npfloat) (r : R) : bool :=
  match x with
  | Fin a => if Rlt_dec r a then true else false
  | PInf => true
  | NInf | NaN => false
  end.

(** [x <= r]: again false on nan. *)
Definition np_le (x : npfloat) (r : R) : bool :=
  match x with
  | Fin a => if Rle_dec a r then true else false
  | NInf => true
  | PInf | NaN => false
  end.

(** ** Python and NumPy primitives *)

(** The builtin [max] of a sequence. *)
Definition py_max (l : list R) : result R :=
  match l with
  | [] => Raise ValueError
  | x :: t => Ok (fold_left Rmax t x)
  end.

(** [l[i]] for [i >= 0]. *)
Definition py_index {A : Type} (l : list A) (i : nat) : result A :=
  match nth_error l i with
  | Some a => Ok a
  | None => Raise IndexError
  end.

(** [l[-1]]. *)
Definition py_last {A : Type} (l : list A) : result A :=
  match l with
  | [] => Raise IndexError
  | _ => py_index l (length l - 1)
  end.

(** [l[i] = v]. *)
Definition py_setitem {A : Type} (l : list A) (i : nat) (v : A) : result (list A) :=
  if (i <? length l)%nat then Ok (firstn i l ++ v :: skipn (S i) l)
  else Raise IndexError.

(** [a[np.arange(a.size) != i]]: the array without position [i]. *)
Definition delete_at {A : Type} (i : nat) (l : list A) : list A :=
  firstn i l ++ skipn (S i) l.

(** [a[mask]] for a boolean mask. *)
Definition np_mask {A : Type} (a : list A) (mask : list bool) : result (list A) :=
  if (length a =? length mask)%nat
  then Ok (map fst (filter snd (combine a mask)))
  else Raise IndexError.

(** What [np.arange(s, s + len(mask))[mask]] holds. *)
Definition masked (s : nat) (mask : list bool) : list nat :=
  map fst (filter snd (combine (seq s (length mask)) mask)).

(** [a[idx]] for an array of indices. *)
Definition np_take {A : Type} (a : list A) (idx : list nat) : result (list A) :=
  mapM (py_index a) idx.

(** [np.diff]. *)
Fixpoint np_diff (l : list R) : list R :=
  match l with
  | a :: (b :: _) as t => (b - a) :: np_diff t
  | _ => []
  end.

(** [l[-2:]]. *)
Definition last_two {A : Type} (l : list A) : list A :=
  skipn (length l - 2) l.

(** [np.unique(l, return_index=True)]: the sorted distinct values, each with
    the index of its first occurrence.  [uinsert] places one indexed value in
    a sorted table and keeps the entry already there on a tie. *)
Fixpoint uinsert (x : R) (i : nat) (tbl : list (R * nat)) : list (R * nat) :=
  match tbl with
  | [] => [(x, i)]
  | (y, j) :: t =>
      if Rlt_dec x y then (x, i) :: (y, j) :: t
      else if Rlt_dec y x then (y, j) :: uinsert x i t
      else (y, j) :: t
  end.

(** The indexed values placed one after the other, from the left. *)
Definition ufold (ps : list (R * nat)) (tbl : list (R * nat)) : list (R * nat) :=
  fold_left (fun tbl p => uinsert (fst p) (snd p) tbl) ps tbl.

Definition utable (l : list R) : list (R * nat) :=
  ufold (combine l (seq 0 (length l))) [].

Definition np_unique_index (l : list R) : list R * list nat :=
  (map fst (utable l), map snd (utable l)).

(** ** [get_new_freq] *)

(** The full output tuple [(new_freq, i_field, error, ierr, i_field2)];
    [i_field2] is there when [req_freq] is given. *)
Record output : Type := mkOut {
  new_freq : list R;
  i_field : list complex;
  error : list npfloat;
  ierr : list nat;
  i_field2 : option (list complex)
}.

(** The temporary arrays of the leave-one-out loop, [tmp_f] and [tmp_s]. *)
Definition tmp_arrays (freq : list R) (field : list complex) (i : nat)
  : result (list R * list complex) :=
  mx <- py_max freq ;;
  if Rlt_dec mx 1e4 then
    Ok (1e-100 :: delete_at i freq ++ [1e4; 1e100],
        C0 :: delete_at i field ++ [C0; C0])
  else
    Ok (1e-100 :: delete_at i freq ++ [1e100],
        C0 :: delete_at i field ++ [C0]).

(** The arrays of the complete interpolation, [tmp_f2] and [tmp_s2]. *)
Definition tmp_arrays2 (freq : list R) (field : list complex)
  : result (list R * list complex) :=
  mx <- py_max freq ;;
  if Rlt_dec mx 1e4 then
    Ok (1e-100 :: freq ++ [1e4; 1e100], C0 :: field ++ [C0; C0])
  else
    Ok (1e-100 :: freq ++ [1e100], C0 :: field ++ [C0]).

(** Line 597: [np.abs((i_field.imag-field.imag)/max(np.abs(field)))]. *)
Definition rel_error (i_fld field : list complex) : result (list npfloat) :=
  let d := map (fun p => im (fst p) - im (snd p)) (combine i_fld field) in
  m <- py_max (map Cabs field) ;;
  Ok (map (fun x => np_abs (np_div x m)) d).

(** Lines 604-620: the log10-frequency of the new sample. *)
Definition new_lfreq (freq : list R) (err : list npfloat) (ier : list nat) (rtol : R)
  : result R :=
  let lfreq := map log10 freq in
  let diff := np_diff lfreq in
  e0 <- py_index err 0 ;;
  if np_gt e0 rtol then
    k <- py_index ier 0 ;;
    l <- py_index lfreq k ;;
    Ok (l - 0.5)
  else
    el <- py_last err ;;
    if np_gt el rtol && (length ier =? 1)%nat then
      k <- py_index ier 0 ;;
      l <- py_index lfreq k ;;
      Ok (l + 0.5)
    else
      k <- py_index ier 0 ;;
      l <- py_index lfreq k ;;
      d <- py_index diff k ;;
      Ok (l + d / 2).

Section GetNewFreq.

(** [si.pchip_interpolate(x, y, q)] at one query point. *)
Variable pchip_interpolate : list R -> list R -> R -> result R.

(** The same at an array of query points. *)
Definition pchip_array (x y q : list R) : result (list R) :=
  mapM (pchip_interpolate x y) q.

(** One pass of the loop over the frequencies; the state is
    [(i_field, i_field2)]. *)
Definition loo_step (freq : list R) (field : list complex)
    (req_freq : option (list R))
    (st : list complex * option (list complex)) (i : nat)
  : result (list complex * option (list complex)) :=
  '(tmp_f, tmp_s) <- tmp_arrays freq field i ;;
  fi <- py_index freq i ;;
  v <- pchip_interpolate tmp_f (map im tmp_s) fi ;;
  i_fld <- py_setitem (fst st) i (Cimag v) ;;
  match req_freq with
  | None => Ok (i_fld, snd st)
  | Some rq =>
      '(tmp_f2, tmp_s2) <- tmp_arrays2 freq field ;;
      v2 <- pchip_array tmp_f2 (map im tmp_s2) rq ;;
      Ok (i_fld, Some (map Cimag v2))
  end.

(** [get_new_freq(freq, field, rtol, req_freq, full_output=True)]. *)
Definition get_new_freq_full (freq : list R) (field : list complex) (rtol : R)
    (req_freq : option (list R)) : result output :=
  let zeros := map (fun _ => C0) field in
  '(i_fld, i_fld2) <-
    for_each (loo_step freq field req_freq) (seq 0 (length freq)) (zeros, None) ;;
  err <- rel_error i_fld field ;;
  ier <- np_mask (seq 0 (length freq)) (map (fun e => np_gt e rtol) err) ;;
  nf <- (if (0 <? length ier)%nat
         then l <- new_lfreq freq err ier rtol ;; Ok [pow10 l]
         else Ok []) ;;
  Ok (mkOut nf i_fld err ier i_fld2).

(** [get_new_freq(freq, field, rtol, req_freq)], [full_output=False]. *)
Definition get_new_freq (freq : list R) (field : list complex) (rtol : R)
    (req_freq : option (list R)) : result (list R) :=
  out <- get_new_freq_full freq field rtol req_freq ;;
  Ok (new_freq out).

End GetNewFreq.

(** ** Lines 599-620 in double precision

    The choice of the new frequency once more, on IEEE doubles: the
    comparisons, additions, subtractions and divisions are the binary64
    operations NumPy performs. [np.log10] and [10**x] come from the
    mathematical library of the platform and are variables. *)


Section Float64.

(** [np.log10(x)] and [10**x] on doubles. *)
Variable np_log10 : float -> float.
Variable np_pow10 : float -> float.



End Float64.

(** ** Vocabulary of the statements *)

(** Sample [j] fails: its error is there and exceeds [rtol]. *)
Definition exceeds_at (err : list npfloat) (rtol : R) (j : nat) : Prop :=
  exists e, nth_error err j = Some e /\ np_gt e rtol = true.

(** [m] is the least (greatest) element of [l]. *)
Definition is_min (m : R) (l : list R) : Prop :=
  In m l /\ Forall (fun x => m <= x) l.

Definition is_max (m : R) (l : list R) : Prop :=
  In m l /\ Forall (fun x => x <= m) l.

(** What one pass of the leave-one-out loop stores at position [i]: the
    interpolation of the arrays without sample [i] at the frequency left
    out. *)
Definition estimate_at (pchip_interpolate : list R -> list R -> R -> result R)
    (freq : list R) (field : list complex) (i_fld : list complex) (i : nat) : Prop :=
  exists tmp_f tmp_s fi v,
    tmp_arrays freq field i = Ok (tmp_f, tmp_s) /\
    nth_error freq i = Some fi /\
    pchip_interpolate tmp_f (map im tmp_s) fi = Ok v /\
    nth_error i_fld i = Some (Cimag v).

(** The error of line 597 as the specification words it, normalised by the
    largest absolute imaginary part; [rel_error] is what the source
    computes. *)
Definition rel_error_imag_norm (i_fld field : list complex) : result (list npfloat) :=
  let d := map (fun p => im (fst p) - im (snd p)) (combine i_fld field) in
  m <- py_max (map (fun z => Rabs (im z)) field) ;;
  Ok (map (fun x => np_abs (np_div x m)) d).

(** A table of [np.unique] in increasing order of its values. *)
Definition table_sorted (tbl : list (R * nat)) : Prop :=
  StronglySorted (fun p q => fst p < fst q) tbl.

(** ** The loop of [design_freq_range] *)

(** Elementwise product of two one-dimensional arrays, with NumPy's
    broadcasting of a one-element array. *)
Definition np_mul (a b : list R) : result (list R) :=
  match a, b with
  | _, [y] => Ok (map (fun x => x * y) a)
  | [x], _ => Ok (map (fun y => x * y) b)
  | _, _ =>
      if (length a =? length b)%nat
      then Ok (map (fun p => fst p * snd p) (combine a b))
      else Raise ValueError
  end.

(** Lines 760-761: [np.unique] of the joined frequencies, and the joined
    fields at the indices it returns. *)
Definition merge (freq : list R) (fEM : list complex)
    (new_f : list R) (new_fEM : list complex) : result (list R * list complex) :=
  let '(freq', ai) := np_unique_index (freq ++ new_f) in
  fEM' <- np_take (fEM ++ new_fEM) ai ;;
  Ok (freq', fEM').

(** Lines 774-777: [freq_ramp] and [fEM_ramp]. *)
Definition ramp (freq : list R) (fEM : list complex)
  : result (list R * list complex) :=
  let lfreq := map log10 freq in
  ll <- py_last lfreq ;;
  steps <- np_mul [1; 2; 3] (np_diff (last_two lfreq)) ;;
  let lramp := map (fun p => fst p + snd p)
                   (combine (map (fun o => o * ll) [1; 1; 1]) steps) in
  fl <- py_last fEM ;;
  Ok (map pow10 lramp, map (fun a => Cscale a fl) [0.75; 0.5; 0.25]).

(** Lines 780-781: [itmp_f] and [itmp_s]. *)
Definition imag_arrays (freq : list R) (fEM : list complex)
  : result (list R * list R) :=
  '(freq_ramp, fEM_ramp) <- ramp freq fEM ;;
  Ok (1e-100 :: freq ++ freq_ramp ++ [1e100],
      0 :: map im fEM ++ map im fEM_ramp ++ [0]).

(** Lines 785-786: [rtmp_f] and [rtmp_s]. *)
Definition real_arrays (freq : list R) (fEM : list complex)
  : result (list R * list R) :=
  '(freq_ramp, fEM_ramp) <- ramp freq fEM ;;
  Ok (freq ++ freq_ramp ++ [1e100],
      map re fEM ++ map re fEM_ramp ++ [0]).

(** The variables the loop reads and writes. *)
Record loop_state : Type := mkSt {
  st_freq : list R;
  st_fEM : list complex;
  st_new_freq : list R;
  st_req_freq : list R;
  st_sfEM : list complex;
  st_tEM : list R
}.

Section DesignFreqRange.

Variable pchip_interpolate : list R -> list R -> R -> result R.

(** [empymod.dipole(freqtime=f, **model)]. *)
Variable dipole : list R -> list complex.

(** [empymod.model.tem(sfEM, ..., freq=req_freq, ...)], reshaped. *)
Variable tem : list complex -> list R -> list R.

Variable rtol : R.

(** The inverse indices of [np.unique(req_freq, return_inverse=True)]. *)
Variable ri : list nat.

(** One pass of [while len(new_freq) > 0], without the plots. *)
Definition loop_body (s : loop_state) : result loop_state :=
  let new_fEM := dipole (st_new_freq s) in
  '(freq, fEM) <- merge (st_freq s) (st_fEM s) (st_new_freq s) new_fEM ;;
  out <- get_new_freq_full pchip_interpolate freq fEM rtol (Some (st_req_freq s)) ;;
  '(itmp_f, itmp_s) <- imag_arrays freq fEM ;;
  isfEM <- pchip_array pchip_interpolate itmp_f itmp_s (st_req_freq s) ;;
  '(rtmp_f, rtmp_s) <- real_arrays freq fEM ;;
  rsfEM <- pchip_array pchip_interpolate rtmp_f rtmp_s (st_req_freq s) ;;
  let sfEM := map (fun p => mkC (fst p) (snd p)) (combine rsfEM isfEM) in
  req_freq <- np_take (st_req_freq s) ri ;;
  sfEM <- np_take sfEM ri ;;
  Ok (mkSt freq fEM (new_freq out) req_freq sfEM (tem sfEM req_freq)).

(** The state before the loop: the arrays are empty and [new_freq] holds
    the initial frequencies. *)
Definition loop_init (seed req_freq : list R) (sfEM : list complex) (stEM : list R)
  : loop_state :=
  mkSt [] [] seed req_freq sfEM stEM.

(** [iterates s0 n s]: the loop started in [s0] reaches [s] after [n]
    passes. *)
Inductive iterates (s0 : loop_state) : nat -> loop_state -> Prop :=
| iterates_0 : iterates s0 O s0
| iterates_S (n : nat) (s s' : loop_state) :
    iterates s0 n s ->
    st_new_freq s <> [] ->
    loop_body s = Ok s' ->
    iterates s0 (S n) s'.

(** The loop run for at most [fuel] passes: [Ok (Some s)] when it has
    left the loop in state [s], [Ok None] when the passes ran out. *)
Fixpoint run_loop (fuel : nat) (s : loop_state) : result (option loop_state) :=
  match st_new_freq s with
  | [] => Ok (Some s)
  | _ :: _ =>
      match fuel with
      | O => Ok None
      | S fuel' => s' <- loop_body s ;; run_loop fuel' s'
      end
  end.

End DesignFreqRange.

(** ** The initial frequencies of [design_freq_range] *)

(** An elementwise operation on two one-dimensional arrays, with NumPy's
    broadcasting of a one-element array. *)
Definition np_zip_with {A B C : Type} (f : A -> B -> C) (a : list A) (b : list B)
  : result (list C) :=
  match a, b with
  | _, [y] => Ok (map (fun x => f x y) a)
  | [x], _ => Ok (map (f x) b)
  | _, _ =>
      if (length a =? length b)%nat
      then Ok (map (fun p => f (fst p) (snd p)) (combine a b))
      else Raise ValueError
  end.



(** ** The plots: limits and displayed errors *)

(** The builtin [min] of a sequence. *)
Definition py_min (l : list R) : result R :=
  match l with
  | [] => Raise ValueError
  | x :: t => Ok (fold_left Rmin t x)
  end.

(** Lines 335-336 and 713-714, the y-limits of the linear time-domain
    plot. *)
Definition ylim_lin (t : list R) : result (R * R) :=
  mx <- py_max t ;;
  mn <- py_min t ;;
  mn' <- py_min t ;;
  mx' <- py_max t ;;
  Ok (Rmin (- mx / 20) (0.9 * mn), Rmax (- mn' / 20) (1.1 * mx')).

(** [c * x] for [c > 0]. *)
Definition np_scale (c : R) (x : npfloat) : npfloat :=
  match x with
  | Fin r => Fin (c * r)
  | PInf => PInf
  | NInf => NInf
  | NaN => NaN
  end.

(** [np.clip(x, lo, hi)], that is [minimum(maximum(x, lo), hi)]; nan stays. *)
Definition np_clip (x : npfloat) (lo hi : R) : npfloat :=
  match x with
  | Fin r => Fin (Rmin (Rmax r lo) hi)
  | PInf => Fin hi
  | NInf => Fin (Rmin lo hi)
  | NaN => NaN
  end.

(** [reim]: the real part for a switch-off signal, else the imaginary. *)
Definition reim (signal : Z) (inp : complex) : R :=
  if (signal <? 0)%Z then re inp else im inp.

(** Lines 389-391, one displayed error in percent. *)
Definition pct_error (x r : R) : npfloat :=
  np_clip (np_scale 100 (np_abs (np_div (x - r) r))) 0.01 100.

(** Lines 389-390, [f_error]. *)
Definition f_error (signal : Z) (f_int f_req : list complex) : result (list npfloat) :=
  np_zip_with pct_error (map (reim signal) f_int) (map (reim signal) f_req).

(** ** The keyword arguments of [InteractiveFrequency.__init__] *)

(** A Python value, as far as the defaults need it. *)
Inductive pyval : Type :=
| PyFloat (r : R)
| PyInt (z : Z)
| PyStr (s : String.string)
| PyNone
| PyObj (id : nat).

(** A dict with string keys, in insertion order. *)
Definition pydict : Type := list (String.string * pyval).

Definition dict_get (d : pydict) (k : String.string) : option pyval :=
  option_map snd (find (fun e => String.eqb (fst e) k) d).

Definition dict_del (d : pydict) (k : String.string) : pydict :=
  filter (fun e => negb (String.eqb (fst e) k)) d.

(** [d.get(k, default)]. *)
Definition dict_get_default (d : pydict) (k : String.string) (default : pyval) : pyval :=
  match dict_get d k with
  | Some v => v
  | None => default
  end.

(** [d.pop(k, default)]: the value and the dict that is left. *)
Definition dict_pop (d : pydict) (k : String.string) (default : pyval)
  : pyval * pydict :=
  match dict_get d k with
  | Some v => (v, dict_del d k)
  | None => (default, d)
  end.

(** What lines 112-120 set. *)
Record init_values : Type := mkInit {
  iv_fmin : pyval;
  iv_fmax : pyval;
  iv_off : pyval;
  iv_ft : pyval;
  iv_ftarg : pyval;
  iv_pts_per_dec : pyval;
  iv_linlog : pyval;
  iv_xtfact : pyval;
  iv_verb : pyval
}.

(** The outcome of lines 112-124: the values, or the [TypeError] with the
    keywords that are left. *)
Inductive init_outcome : Type :=
| InitOk (v : init_values)
| InitTypeError (unexpected : pydict).

Open Scope string_scope.

(** Lines 112-124. *)
Definition init_kwargs (kwargs : pydict) : init_outcome :=
  let '(fmin, kw) := dict_pop kwargs "fmin" (PyFloat 1e-3) in
  let '(fmax, kw) := dict_pop kw "fmax" (PyFloat 1e1) in
  let '(off, kw) := dict_pop kw "off" (PyInt 5000) in
  let '(ft, kw) := dict_pop kw "ft" (PyStr "sin") in
  let '(ftarg, kw) := dict_pop kw "ftarg" PyNone in
  let '(pts_per_dec, kw) := dict_pop kw "pts_per_dec" (PyInt 5) in
  let '(linlog, kw) := dict_pop kw "linlog" (PyStr "linear") in
  let '(xtfact, kw) := dict_pop kw "xtfact" (PyInt 1) in
  let '(verb, kw) := dict_pop kw "verb" (PyInt 1) in
  match kw with
  | [] => InitOk (mkInit fmin fmax off ft ftarg pts_per_dec linlog xtfact verb)
  | _ :: _ => InitTypeError kw
  end.

(** The keywords [__init__] knows. *)
Definition init_keywords : list String.string :=
  ["fmin"; "fmax"; "off"; "ft"; "ftarg"; "pts_per_dec"; "linlog"; "xtfact"; "verb"].

Close Scope string_scope.

(** ** Instances of the external functions for the examples *)

(** An interpolant that is zero everywhere; PCHIP is this function on data
    that are all zero. *)
Definition interp_zero (x y : list R) (q : R) : result R := Ok 0.

(** A forward model with field [1j] at every frequency. *)
Definition dipole_unit (f : list R) : list complex := map (fun _ => mkC 0 1) f.

(** A forward model with the real field 1 at every frequency. *)
Definition dipole_real (f : list R) : list complex := map (fun _ => mkC 1 0) f.

(** A transform that returns the imaginary part of the spectrum. *)
Definition tem_imag (sfEM : list complex) (req_freq : list R) : list R := map im sfEM.



(** * Properties *)

(** ** The exception monad *)

Lemma bind_Ok {A B : Type} (m : result A) (k : A -> result B) (b : B) :
  bind m k = Ok b -> exists a, m = Ok a /\ k a = Ok b.
Proof.
  destruct m as [a|e]; simpl; intros H; [exists a; auto | discriminate].
Qed.

(** Splits a successful [bind] in hypothesis [H] into its two steps. *)
Tactic Notation "bind_inv" hyp(H) "as" ident(a) ident(Ha) :=
  apply bind_Ok in H; destruct H as [a [Ha H]].

Tactic Notation "bind_inv" hyp(H) :=
  let a := fresh "a" in
  let Ha := fresh "Hstep" in
  apply bind_Ok in H; destruct H as [a [Ha H]].

Lemma py_index_Ok {A : Type} (l : list A) (i : nat) (a : A) :
  py_index l i = Ok a <-> nth_error l i = Some a.
Proof.
  unfold py_index. destruct (nth_error l i); split; intros H;
    try discriminate; inversion H; reflexivity.
Qed.

Lemma py_last_Ok {A : Type} (l : list A) (a : A) :
  py_last l = Ok a <-> l <> [] /\ nth_error l (length l - 1) = Some a.
Proof.
  unfold py_last. destruct l as [|x t].
  - split; [discriminate | intros [H _]; congruence].
  - rewrite py_index_Ok. split; [intros H; split; [discriminate | exact H] | tauto].
Qed.

Lemma mapM_length {A B : Type} (f : A -> result B) (l : list A) (bs : list B) :
  mapM f l = Ok bs -> length bs = length l.
Proof.
  revert bs. induction l as [|a t IH]; simpl; intros bs H.
  - inversion H. reflexivity.
  - bind_inv H. bind_inv H. inversion H. simpl. f_equal. eauto.
Qed.

Lemma mapM_nth {A B : Type} (f : A -> result B) (l : list A) (bs : list B) :
  mapM f l = Ok bs ->
  forall j b, nth_error bs j = Some b ->
  exists a, nth_error l j = Some a /\ f a = Ok b.
Proof.
  revert bs. induction l as [|a t IH]; simpl; intros bs H j b Hj.
  - inversion H; subst. destruct j; discriminate.
  - bind_inv H. bind_inv H. inversion H; subst.
    destruct j as [|j]; simpl in *.
    + inversion Hj; subst. eauto.
    + eauto.
Qed.

(** ** Boolean masks over [np.arange] *)

Lemma masked_cons (s : nat) (b : bool) (mask : list bool) :
  masked s (b :: mask) = if b then s :: masked (S s) mask else masked (S s) mask.
Proof. unfold masked. simpl. destruct b; reflexivity. Qed.

Lemma masked_In (mask : list bool) :
  forall s k, In k (masked s mask) <->
              (s <= k)%nat /\ nth_error mask (k - s) = Some true.
Proof.
  induction mask as [|b mask IH]; intros s k.
  - unfold masked; simpl. split; [tauto|].
    intros [_ H]. destruct (k - s)%nat; discriminate.
  - rewrite masked_cons.
    assert (Hstep : In k (masked (S s) mask) <->
              (s < k)%nat /\ nth_error (b :: mask) (k - s) = Some true).
    { rewrite IH. split.
      - intros [Hle Hn]. split; [lia|].
        replace (k - s)%nat with (S (k - S s)) by lia. exact Hn.
      - intros [Hlt Hn]. split; [lia|].
        replace (k - s)%nat with (S (k - S s)) in Hn by lia. exact Hn. }
    destruct b; simpl In; rewrite ?Hstep.
    + split.
      * intros [->|[Hlt Hn]]; [split; [lia|] | split; [lia|exact Hn]].
        rewrite Nat.sub_diag. reflexivity.
      * intros [Hle Hn]. destruct (Nat.eq_dec s k) as [->|Hne]; [left; reflexivity|].
        right. split; [lia|exact Hn].
    + split.
      * intros [Hlt Hn]. split; [lia|exact Hn].
      * intros [Hle Hn]. destruct (Nat.eq_dec s k) as [->|Hne].
        -- rewrite Nat.sub_diag in Hn. discriminate.
        -- split; [lia|exact Hn].
Qed.

Lemma masked_sorted (mask : list bool) :
  forall s, StronglySorted lt (masked s mask).
Proof.
  induction mask as [|b mask IH]; intros s.
  - constructor.
  - rewrite masked_cons. destruct b; [|apply IH].
    constructor; [apply IH|].
    apply Forall_forall. intros k Hk. apply masked_In in Hk. lia.
Qed.

Lemma np_mask_arange (n : nat) (mask : list bool) (ier : list nat) :
  np_mask (seq 0 n) mask = Ok ier -> length mask = n /\ ier = masked 0 mask.
Proof.
  unfold np_mask. rewrite length_seq.
  destruct (Nat.eqb_spec n (length mask)) as [->|]; [|discriminate].
  intros H. inversion H. split; reflexivity.
Qed.

Lemma np_mask_arange_Ok (n : nat) (mask : list bool) :
  length mask = n -> np_mask (seq 0 n) mask = Ok (masked 0 mask).
Proof.
  intros <-. unfold np_mask, masked. rewrite length_seq, Nat.eqb_refl. reflexivity.
Qed.

(** ** Item assignment *)

Lemma splice_spec {A : Type} (l : list A) (i : nat) (v : A) :
  (i < length l)%nat ->
  length (firstn i l ++ v :: skipn (S i) l) = length l /\
  nth_error (firstn i l ++ v :: skipn (S i) l) i = Some v /\
  (forall j, j <> i ->
     nth_error (firstn i l ++ v :: skipn (S i) l) j = nth_error l j).
Proof.
  intros Hlt.
  assert (Hf : length (firstn i l) = i) by (rewrite length_firstn; lia).
  split; [|split].
  - rewrite length_app, length_cons, Hf, length_skipn. lia.
  - rewrite nth_error_app2 by lia. rewrite Hf, Nat.sub_diag. reflexivity.
  - intros j Hj. destruct (Nat.lt_ge_cases j i) as [Hji|Hji].
    + rewrite nth_error_app1 by lia. rewrite nth_error_firstn.
      destruct (Nat.ltb_spec j i); [reflexivity | lia].
    + rewrite nth_error_app2 by lia. rewrite Hf.
      replace (j - i)%nat with (S (j - S i)) by lia.
      rewrite nth_error_cons_succ, nth_error_skipn. f_equal. lia.
Qed.

Lemma py_setitem_Ok {A : Type} (l l' : list A) (i : nat) (v : A) :
  py_setitem l i v = Ok l' ->
  (i < length l)%nat /\ length l' = length l /\ nth_error l' i = Some v /\
  (forall j, j <> i -> nth_error l' j = nth_error l j).
Proof.
  unfold py_setitem. destruct (Nat.ltb_spec i (length l)) as [Hlt|]; [|discriminate].
  intros H. split; [exact Hlt|].
  replace l' with (firstn i l ++ v :: skipn (S i) l) by congruence.
  apply splice_spec. exact Hlt.
Qed.

(** ** The leave-one-out loop *)

Section LeaveOneOut.

Variable pchip_interpolate : list R -> list R -> R -> result R.
Variables (freq : list R) (field : list complex) (req_freq : option (list R)).

Lemma loo_step_Ok st i st' :
  loo_step pchip_interpolate freq field req_freq st i = Ok st' ->
  length (fst st') = length (fst st) /\
  estimate_at pchip_interpolate freq field (fst st') i /\
  (forall j, j <> i -> nth_error (fst st') j = nth_error (fst st) j).
Proof.
  unfold loo_step. intros H.
  bind_inv H as arrs Harrs. destruct arrs as [tmp_f tmp_s].
  bind_inv H as fi Hfi. bind_inv H as v Hv. bind_inv H as i_fld Hset.
  apply py_index_Ok in Hfi.
  apply py_setitem_Ok in Hset. destruct Hset as (_ & Hlen & Hi & Hother).
  assert (Hfst : fst st' = i_fld).
  { destruct req_freq as [rq|].
    - bind_inv H as arrs2 Harrs2. destruct arrs2 as [f2 s2].
      bind_inv H as v2 Hv2. inversion H. reflexivity.
    - inversion H. reflexivity. }
  rewrite Hfst. split; [exact Hlen|]. split; [|exact Hother].
  exists tmp_f, tmp_s, fi, v. auto.
Qed.

Lemma loo_loop_Ok n :
  forall a st st',
    for_each (loo_step pchip_interpolate freq field req_freq) (seq a n) st = Ok st' ->
    length (fst st') = length (fst st) /\
    (forall i, (a <= i < a + n)%nat ->
       estimate_at pchip_interpolate freq field (fst st') i) /\
    (forall j, (j < a)%nat -> nth_error (fst st') j = nth_error (fst st) j).
Proof.
  induction n as [|n IH]; simpl; intros a st st' H.
  - inversion H; subst. split; [reflexivity|]. split; [intros; lia | reflexivity].
  - bind_inv H. apply loo_step_Ok in Hstep. destruct Hstep as (Hlen & Hest & Hother).
    apply IH in H. destruct H as (Hlen' & Hest' & Hother').
    split; [congruence|]. split.
    + intros i Hi. destruct (Nat.eq_dec i a) as [->|Hne].
      * destruct Hest as (tf & ts & fi & v & H1 & H2 & H3 & H4).
        exists tf, ts, fi, v. repeat split; auto.
        rewrite Hother' by lia. exact H4.
      * apply Hest'. lia.
    + intros j Hj. rewrite Hother' by lia. apply Hother. lia.
Qed.

End LeaveOneOut.

(** ** The error vector and the failing indices *)

Lemma nth_error_combine_Some {A B : Type} (l1 : list A) (l2 : list B) :
  forall i a b,
    nth_error l1 i = Some a -> nth_error l2 i = Some b ->
    nth_error (combine l1 l2) i = Some (a, b).
Proof.
  revert l2. induction l1 as [|x t IH]; intros [|y u] [|i] a b H1 H2;
    simpl in *; try discriminate.
  - congruence.
  - auto.
Qed.

Lemma rel_error_Ok (i_fld field : list complex) (err : list npfloat) :
  rel_error i_fld field = Ok err ->
  exists m,
    py_max (map Cabs field) = Ok m /\
    length err = Nat.min (length i_fld) (length field) /\
    (forall i a z, nth_error i_fld i = Some a -> nth_error field i = Some z ->
       nth_error err i = Some (np_abs (np_div (im a - im z) m))).
Proof.
  unfold rel_error. intros H. bind_inv H as m Hm. inversion H; subst err.
  exists m. split; [exact Hm|]. split.
  - rewrite !length_map. apply length_combine.
  - intros i a z Ha Hz.
    rewrite nth_error_map, nth_error_map.
    rewrite (nth_error_combine_Some _ _ _ _ _ Ha Hz). reflexivity.
Qed.

(** The failing indices are the positions where the error exceeds [rtol]. *)
Lemma masked_exceeds (err : list npfloat) (rtol : R) (j : nat) :
  In j (masked 0 (map (fun e => np_gt e rtol) err)) <-> exceeds_at err rtol j.
Proof.
  rewrite masked_In, Nat.sub_0_r, nth_error_map. unfold exceeds_at.
  split.
  - intros [_ H]. destruct (nth_error err j) as [e|]; [|discriminate].
    simpl in H. exists e. split; [reflexivity | congruence].
  - intros [e [He Hgt]]. split; [lia|]. rewrite He. simpl. congruence.
Qed.

Lemma exceeds_at_lt (err : list npfloat) (rtol : R) (j : nat) :
  exceeds_at err rtol j -> (j < length err)%nat.
Proof.
  intros [e [He _]]. apply nth_error_Some. congruence.
Qed.

Section GetNewFreqFacts.

Variable pchip_interpolate : list R -> list R -> R -> result R.

(** What a call that returns has computed. *)
Lemma get_new_freq_full_Ok freq field rtol req_freq out :
  get_new_freq_full pchip_interpolate freq field rtol req_freq = Ok out ->
  length field = length freq /\
  length (i_field out) = length freq /\
  length (error out) = length freq /\
  (forall i, (i < length freq)%nat ->
     estimate_at pchip_interpolate freq field (i_field out) i) /\
  rel_error (i_field out) field = Ok (error out) /\
  ierr out = masked 0 (map (fun e => np_gt e rtol) (error out)) /\
  ((ierr out = [] /\ new_freq out = []) \/
   (ierr out <> [] /\
    exists l, new_lfreq freq (error out) (ierr out) rtol = Ok l /\
              new_freq out = [pow10 l])).
Proof.
  unfold get_new_freq_full. intros H.
  bind_inv H as st Hloop. destruct st as [i_fld i_fld2].
  bind_inv H as err Herr. bind_inv H as ier Hier. bind_inv H as nf Hnf.
  inversion H; subst out; clear H. simpl.
  apply loo_loop_Ok in Hloop. simpl in Hloop.
  destruct Hloop as (Hlen & Hest & _). rewrite length_map in Hlen.
  apply np_mask_arange in Hier. destruct Hier as [Hmask ->].
  rewrite length_map in Hmask.
  destruct (rel_error_Ok _ _ _ Herr) as (m & _ & Hlerr & _).
  rewrite Hlen, Nat.min_id in Hlerr.
  repeat split; try congruence.
  - intros i Hi. apply Hest. lia.
  - destruct (masked 0 (map (fun e => np_gt e rtol) err)) as [|k rest] eqn:E.
    + simpl in Hnf. inversion Hnf. left. split; reflexivity.
    + simpl in Hnf. bind_inv Hnf as l Hl. inversion Hnf. right.
      split; [discriminate|]. exists l. split; [exact Hl | reflexivity].
Qed.

End GetNewFreqFacts.

(** ** The choice of the new log10-frequency *)

Lemma np_diff_nth (l : list R) :
  forall k a b,
    nth_error l k = Some a -> nth_error l (S k) = Some b ->
    nth_error (np_diff l) k = Some (b - a).
Proof.
  induction l as [|x t IH]; intros k a b Ha Hb; [destruct k; discriminate|].
  destruct t as [|y u]; [destruct k; discriminate|].
  destruct k as [|k].
  - simpl in *. congruence.
  - change (np_diff (x :: y :: u)) with ((y - x) :: np_diff (y :: u)).
    apply (IH k a b); assumption.
Qed.

Lemma not_exceeds_at (err : list npfloat) (rtol : R) (j : nat) (e : npfloat) :
  nth_error err j = Some e -> np_gt e rtol = false -> ~ exceeds_at err rtol j.
Proof.
  intros He Hgt [e' [He' Hgt']]. congruence.
Qed.

(** The three rules of lines 609-617, read off the first failing index [k]:
    half a decade down when sample 0 fails, half a decade up when the last
    sample is the only one that fails, else halfway to the next frequency,
    which is then inside the array. *)
Lemma new_lfreq_rules (freq : list R) (err : list npfloat) (rtol : R)
    (k : nat) (rest : list nat) :
  length err = length freq ->
  masked 0 (map (fun e => np_gt e rtol) err) = k :: rest ->
  exists fk,
    nth_error freq k = Some fk /\
    ((exceeds_at err rtol 0 /\ k = O /\
      new_lfreq freq err (k :: rest) rtol = Ok (log10 fk - 0.5)) \/
     (~ exceeds_at err rtol 0 /\ exceeds_at err rtol (length freq - 1) /\
      rest = [] /\ k = (length freq - 1)%nat /\
      new_lfreq freq err (k :: rest) rtol = Ok (log10 fk + 0.5)) \/
     (~ exceeds_at err rtol 0 /\
      ~ (exceeds_at err rtol (length freq - 1) /\ rest = []) /\
      exists fk1,
        nth_error freq (S k) = Some fk1 /\
        new_lfreq freq err (k :: rest) rtol
          = Ok (log10 fk + (log10 fk1 - log10 fk) / 2))).
Proof.
  intros Hlen Hier.
  assert (Hin : forall j, In j (k :: rest) <-> exceeds_at err rtol j).
  { intros j. rewrite <- Hier. apply masked_exceeds. }
  assert (Hsort : Forall (lt k) rest).
  { pose proof (masked_sorted (map (fun e => np_gt e rtol) err) 0) as Hs.
    rewrite Hier in Hs. inversion Hs; assumption. }
  assert (Hk : exceeds_at err rtol k) by (apply Hin; left; reflexivity).
  assert (Hkn : (k < length freq)%nat) by (rewrite <- Hlen; eapply exceeds_at_lt; eauto).
  destruct (nth_error freq k) as [fk|] eqn:Hfk;
    [|apply nth_error_None in Hfk; lia].
  exists fk. split; [reflexivity|].
  assert (Hlk : py_index (map log10 freq) k = Ok (log10 fk)).
  { apply py_index_Ok. apply map_nth_error. exact Hfk. }
  destruct (nth_error err 0) as [e0|] eqn:He0;
    [|apply nth_error_None in He0; lia].
  assert (Hi0 : py_index err 0 = Ok e0) by (apply py_index_Ok; exact He0).
  destruct (nth_error err (length err - 1)) as [el|] eqn:Hel;
    [|apply nth_error_None in Hel; lia].
  assert (Hil : py_last err = Ok el).
  { apply py_last_Ok. split; [|exact Hel]. intros ->. destruct k; discriminate. }
  assert (Hnext : (S k < length freq)%nat -> exists fk1,
            nth_error freq (S k) = Some fk1 /\
            py_index (np_diff (map log10 freq)) k = Ok (log10 fk1 - log10 fk)).
  { intros Hlt. destruct (nth_error freq (S k)) as [fk1|] eqn:Hfk1;
      [|apply nth_error_None in Hfk1; lia].
    exists fk1. split; [reflexivity|]. apply py_index_Ok.
    apply np_diff_nth; apply map_nth_error; assumption. }
  unfold new_lfreq. rewrite Hi0. cbn [bind].
  destruct (np_gt e0 rtol) eqn:Hgt0.
  - (* sample 0 fails *)
    left. assert (H0 : exceeds_at err rtol 0) by (exists e0; auto).
    assert (k = O) as ->.
    { apply Hin in H0. destruct H0 as [H0|H0]; [auto|].
      rewrite Forall_forall in Hsort. apply Hsort in H0. lia. }
    split; [exact H0|]. split; [reflexivity|].
    change (py_index (O :: rest) 0) with (Ok O). cbn [bind].
    rewrite Hlk. reflexivity.
  - right. pose proof (not_exceeds_at _ _ _ _ He0 Hgt0) as Hn0.
    rewrite Hil. cbn [bind].
    change (py_index (k :: rest) 0) with (Ok k).
    assert (Helse : rest <> [] \/ np_gt el rtol = false ->
              (S k < length freq)%nat).
    { intros [Hrest|Hgl].
      - destruct rest as [|r rs]; [congruence|].
        assert (Hr : exceeds_at err rtol r) by (apply Hin; right; left; reflexivity).
        apply exceeds_at_lt in Hr. inversion Hsort; subst. lia.
      - destruct (Nat.eq_dec k (length err - 1)) as [->|Hne]; [|lia].
        destruct Hk as [e [He Hge]]. congruence. }
    destruct (np_gt el rtol) eqn:Hgtl; destruct rest as [|r rs]; cbn [andb length Nat.eqb bind].
    + (* the last sample fails, alone *)
      left. assert (Hl : exceeds_at err rtol (length freq - 1)).
      { rewrite <- Hlen. exists el; auto. }
      assert (k = (length freq - 1)%nat) as Hkl.
      { apply Hin in Hl. destruct Hl as [Hl|[]]. exact Hl. }
      repeat (split; [assumption || reflexivity|]).
      rewrite Hlk. reflexivity.
    + right. split; [exact Hn0|]. split; [intros [_ ?]; discriminate|].
      destruct Hnext as (fk1 & Hfk1 & Hd); [apply Helse; left; discriminate|].
      exists fk1. split; [exact Hfk1|]. rewrite Hlk, Hd. reflexivity.
    + right. split; [exact Hn0|]. split.
      { intros [Hl _]. rewrite <- Hlen in Hl.
        exact (not_exceeds_at _ _ _ _ Hel Hgtl Hl). }
      destruct Hnext as (fk1 & Hfk1 & Hd); [apply Helse; right; reflexivity|].
      exists fk1. split; [exact Hfk1|]. rewrite Hlk, Hd. reflexivity.
    + right. split; [exact Hn0|]. split; [intros [_ ?]; discriminate|].
      destruct Hnext as (fk1 & Hfk1 & Hd); [apply Helse; left; discriminate|].
      exists fk1. split; [exact Hfk1|]. rewrite Hlk, Hd. reflexivity.
Qed.

(** ** Sorted arrays *)

Lemma sorted_nth_le (l : list R) :
  StronglySorted Rle l ->
  forall i j a b, nth_error l i = Some a -> nth_error l j = Some b ->
                  (i <= j)%nat -> a <= b.
Proof.
  induction 1 as [|x t Hs IH Hall]; intros i j a b Ha Hb Hij.
  - destruct i; discriminate.
  - destruct i as [|i], j as [|j]; simpl in *; try lia.
    + injection Ha as <-. injection Hb as <-. lra.
    + injection Ha as <-. rewrite Forall_forall in Hall.
      apply Hall. eapply nth_error_In; eauto.
    + eapply IH; eauto. lia.
Qed.

Lemma sorted_first_is_min (l : list R) (m f0 : R) :
  StronglySorted Rle l -> is_min m l -> nth_error l 0 = Some f0 -> f0 = m.
Proof.
  intros Hs [Hin Hall] H0.
  apply In_nth_error in Hin. destruct Hin as [j Hj].
  pose proof (sorted_nth_le l Hs 0 j f0 m H0 Hj ltac:(lia)) as Hle.
  rewrite Forall_forall in Hall.
  pose proof (Hall f0 (nth_error_In _ _ H0)). lra.
Qed.

Lemma sorted_last_is_max (l : list R) (m fl : R) :
  StronglySorted Rle l -> is_max m l ->
  nth_error l (length l - 1) = Some fl -> fl = m.
Proof.
  intros Hs [Hin Hall] Hl.
  apply In_nth_error in Hin. destruct Hin as [j Hj].
  assert (Hjl : (j < length l)%nat) by (apply nth_error_Some; congruence).
  pose proof (sorted_nth_le l Hs j (length l - 1) m fl Hj Hl ltac:(lia)) as Hle.
  rewrite Forall_forall in Hall.
  pose proof (Hall fl (nth_error_In _ _ Hl)). lra.
Qed.


(** ** The refinement rules of [get_new_freq] *)

Section Refiner.

Variable pchip_interpolate : list R -> list R -> R -> result R.
Variables (freq : list R) (field : list complex) (rtol : R).
Variable req_freq : option (list R).
Variable out : output.
Hypothesis Hout :
  get_new_freq_full pchip_interpolate freq field rtol req_freq = Ok out.

(** The short call returns the first entry of the full output. *)
Lemma get_new_freq_short : 
  get_new_freq pchip_interpolate freq field rtol req_freq = Ok (new_freq out).
Proof. unfold get_new_freq. rewrite Hout. reflexivity. Qed.

Lemma ierr_exceeds (j : nat) : In j (ierr out) <-> exceeds_at (error out) rtol j.
Proof.
  destruct (get_new_freq_full_Ok _ _ _ _ _ _ Hout) as (_ & _ & _ & _ & _ & Hier & _).
  rewrite Hier. apply masked_exceeds.
Qed.

(** The rules, for a call that returns with a failing sample. *)
Lemma refine_rules (j : nat) :
  exceeds_at (error out) rtol j ->
  exists k rest fk,
    ierr out = k :: rest /\ nth_error freq k = Some fk /\
    ((exceeds_at (error out) rtol 0 /\ k = O /\
      new_freq out = [pow10 (log10 fk - 0.5)]) \/
     (~ exceeds_at (error out) rtol 0 /\
      exceeds_at (error out) rtol (length freq - 1) /\
      rest = [] /\ k = (length freq - 1)%nat /\
      new_freq out = [pow10 (log10 fk + 0.5)]) \/
     (~ exceeds_at (error out) rtol 0 /\
      ~ (exceeds_at (error out) rtol (length freq - 1) /\ rest = []) /\
      exists fk1,
        nth_error freq (S k) = Some fk1 /\
        new_freq out = [pow10 (log10 fk + (log10 fk1 - log10 fk) / 2)])).
Proof.
  intros Hj. apply ierr_exceeds in Hj.
  destruct (get_new_freq_full_Ok _ _ _ _ _ _ Hout)
    as (_ & _ & Hlen & _ & _ & Hier & Hnew).
  destruct Hnew as [[Hnil _]|[_ (l & Hl & Hnf)]]; [rewrite Hnil in Hj; destruct Hj|].
  destruct (ierr out) as [|k rest] eqn:E; [destruct Hj|].
  symmetry in Hier.
  destruct (new_lfreq_rules freq (error out) rtol k rest Hlen Hier)
    as (fk & Hfk & Hrules).
  exists k, rest, fk. split; [reflexivity|]. split; [exact Hfk|].
  destruct Hrules as [(H0 & Hk & Hv)|[(H0 & Hl' & Hr & Hk & Hv)|(H0 & Hl' & fk1 & Hfk1 & Hv)]].
  - left. repeat (split; [assumption|]). congruence.
  - right; left. repeat (split; [assumption|]). congruence.
  - right; right. repeat (split; [assumption|]).
    exists fk1. split; [assumption|]. congruence.
Qed.

End Refiner.

(** ** Runs with the zero interpolant *)

Lemma splice_same {A : Type} (l : list A) (i : nat) (v : A) :
  nth_error l i = Some v -> firstn i l ++ v :: skipn (S i) l = l.
Proof.
  revert i. induction l as [|x t IH]; intros [|i] H; simpl in *; try discriminate.
  - congruence.
  - f_equal. apply IH. exact H.
Qed.

Lemma nth_error_zeros {A : Type} (l : list A) (i : nat) :
  (i < length l)%nat -> nth_error (map (fun _ => C0) l) i = Some C0.
Proof.
  intros Hi. destruct (nth_error l i) as [a|] eqn:E.
  - erewrite map_nth_error; eauto.
  - apply nth_error_None in E. lia.
Qed.

(** With the zero interpolant the loop leaves [i_field] at zero. *)
Lemma loo_loop_zero (freq : list R) (field : list complex) (n : nat) :
  length field = length freq ->
  forall a, (a + n <= length freq)%nat ->
    for_each (loo_step interp_zero freq field None) (seq a n)
             (map (fun _ => C0) field, None)
    = Ok (map (fun _ => C0) field, None).
Proof.
  intros Hlen. induction n as [|n IH]; intros a Ha; [reflexivity|].
  cbn [seq for_each].
  assert (Hstep : loo_step interp_zero freq field None
                    (map (fun _ => C0) field, None) a
                  = Ok (map (fun _ => C0) field, None)).
  { unfold loo_step, tmp_arrays.
    destruct freq as [|f0 ft] eqn:Ef; [simpl in Ha; lia|]. rewrite <- Ef in *.
    assert (Hmx : py_max freq = Ok (fold_left Rmax ft f0)) by (rewrite Ef; reflexivity).
    rewrite Hmx. cbn [bind].
    destruct (nth_error freq a) as [fa|] eqn:Efa;
      [|apply nth_error_None in Efa; lia].
    assert (Hfa : py_index freq a = Ok fa) by (apply py_index_Ok; exact Efa).
    assert (Hset : py_setitem (map (fun _ => C0) field) a (Cimag 0)
                   = Ok (map (fun _ => C0) field)).
    { unfold py_setitem. rewrite length_map.
      destruct (Nat.ltb_spec a (length field)); [|lia].
      f_equal. apply splice_same. apply nth_error_zeros. lia. }
    destruct (Rlt_dec (fold_left Rmax ft f0) 1e4);
      cbn [bind fst snd]; rewrite Hfa; cbn [bind]; unfold interp_zero at 1;
      cbn [bind fst snd]; rewrite Hset; reflexivity. }
  rewrite Hstep. cbn [bind]. apply IH. lia.
Qed.

Lemma get_new_freq_full_zero (freq : list R) (field : list complex) (rtol : R) :
  length field = length freq ->
  get_new_freq_full interp_zero freq field rtol None =
    (err <- rel_error (map (fun _ => C0) field) field ;;
     ier <- np_mask (seq 0 (length freq)) (map (fun e => np_gt e rtol) err) ;;
     nf <- (if (0 <? length ier)%nat
            then l <- new_lfreq freq err ier rtol ;; Ok [pow10 l]
            else Ok []) ;;
     Ok (mkOut nf (map (fun _ => C0) field) err ier None)).
Proof.
  intros Hlen. unfold get_new_freq_full.
  rewrite (loo_loop_zero freq field (length freq) Hlen 0) by lia.
  reflexivity.
Qed.

(** ** Evaluating the error vector *)

Lemma Cabs_imag (v : R) : Cabs (mkC 0 v) = Rabs v.
Proof.
  unfold Cabs. simpl. replace (0 * 0 + v * v) with (Rsqr v) by (unfold Rsqr; ring).
  apply sqrt_Rsqr_abs.
Qed.

Lemma Cabs_real (v : R) : Cabs (mkC v 0) = Rabs v.
Proof.
  unfold Cabs. simpl. replace (v * v + 0 * 0) with (Rsqr v) by (unfold Rsqr; ring).
  apply sqrt_Rsqr_abs.
Qed.

Lemma Cabs_nonneg (z : complex) : 0 <= Cabs z.
Proof. apply sqrt_pos. Qed.

Lemma np_err_pos (x m : R) : 0 < m -> np_abs (np_div x m) = Fin (Rabs x / m).
Proof.
  intros Hm. unfold np_div. destruct (Req_dec_T m 0) as [E|_]; [lra|].
  simpl. f_equal. unfold Rdiv. rewrite Rabs_mult, Rabs_inv.
  rewrite (Rabs_pos_eq m) by lra. reflexivity.
Qed.

Lemma np_err_zero (x : R) :
  np_abs (np_div x 0) = if Req_dec_T x 0 then NaN else PInf.
Proof.
  unfold np_div. destruct (Req_dec_T 0 0) as [_|E]; [|congruence].
  destruct (Req_dec_T x 0); [reflexivity|].
  destruct (Rlt_dec 0 x); reflexivity.
Qed.

Lemma np_gt_Fin_true (a r : R) : r < a -> np_gt (Fin a) r = true.
Proof. intros H. simpl. destruct (Rlt_dec r a); [reflexivity | contradiction]. Qed.

Lemma np_gt_Fin_false (a r : R) : a <= r -> np_gt (Fin a) r = false.
Proof. intros H. simpl. destruct (Rlt_dec r a); [lra | reflexivity]. Qed.

(** Decides the comparisons of concrete numbers in the goal. *)
Ltac rabs_eval :=
  repeat match goal with
         | |- context [Rabs ?x] =>
             let v := fresh "v" in
             let E := fresh "E" in
             remember (Rabs x) as v eqn:E;
             unfold Rabs in E; destruct (Rcase_abs x) in E; try (exfalso; lra);
             ring_simplify in E; subst v
         end.

Ltac rmax_eval :=
  repeat match goal with
         | |- context [Rmax ?x ?y] =>
             first [ rewrite (Rmax_left x y) by lra
                   | rewrite (Rmax_right x y) by lra ]
         end.

Ltac rdec_eval :=
  repeat match goal with
         | |- context [Rlt_dec ?x ?y] =>
             destruct (Rlt_dec x y); try (exfalso; lra)
         | |- context [Req_dec_T ?x ?y] =>
             destruct (Req_dec_T x y); try (exfalso; lra)
         end.

(** Evaluates a call with the zero interpolant down to the choice of rule. *)
Ltac run_zero :=
  rewrite get_new_freq_full_zero by reflexivity;
  unfold rel_error, py_max, C0; cbn [map combine fst snd im re fold_left];
  rewrite ?Cabs_imag, ?Cabs_real; rabs_eval; rmax_eval; cbn [bind map];
  rewrite ?np_err_pos by lra; rabs_eval;
  replace (1 / 1) with 1 by lra; replace (0 / 1) with 0 by lra;
  cbn; rdec_eval.

Lemma run_low_extension :
  get_new_freq_full interp_zero [1; 10; 100] [mkC 0 1; mkC 0 1; C0] 0.1 None
  = Ok (mkOut [pow10 (log10 1 - 0.5)] [C0; C0; C0] [Fin 1; Fin 1; Fin 0]
              [0%nat; 1%nat] None).
Proof. run_zero. reflexivity. Qed.

Lemma run_high_extension :
  get_new_freq_full interp_zero [1; 10; 100] [C0; C0; mkC 0 1] 0.1 None
  = Ok (mkOut [pow10 (log10 100 + 0.5)] [C0; C0; C0] [Fin 0; Fin 0; Fin 1]
              [2%nat] None).
Proof. run_zero. reflexivity. Qed.

Lemma run_bisection :
  get_new_freq_full interp_zero [1; 10; 100] [C0; mkC 0 1; C0] 0.1 None
  = Ok (mkOut [pow10 (log10 10 + (log10 100 - log10 10) / 2)] [C0; C0; C0]
              [Fin 0; Fin 1; Fin 0] [1%nat] None).
Proof. run_zero. reflexivity. Qed.

Lemma run_converged :
  get_new_freq_full interp_zero [1; 10] [mkC 1 0; mkC 1 0] 0.1 None
  = Ok (mkOut [] [C0; C0] [Fin 0; Fin 0] [] None).
Proof. run_zero. reflexivity. Qed.

(** * The claims about [get_new_freq] *)

Section Claims.

Variable pchip_interpolate : list R -> list R -> R -> result R.

(** C2. Low-frequency extension. For sorted frequencies, when the error of
    the lowest-frequency sample exceeds [rtol], a call that returns proposes
    the single frequency [10^(log10(f_min) - 0.5)], whatever the errors of
    the other samples are. *)
Theorem low_extension_priority
    (freq : list R) (field : list complex) (rtol : R) (req_freq : option (list R))
    (out : output) (fmin : R) :
  StronglySorted Rle freq ->
  is_min fmin freq ->
  get_new_freq_full pchip_interpolate freq field rtol req_freq = Ok out ->
  exceeds_at (error out) rtol 0 ->
  new_freq out = [pow10 (log10 fmin - 0.5)] /\
  get_new_freq pchip_interpolate freq field rtol req_freq
    = Ok [pow10 (log10 fmin - 0.5)].
Proof.
  intros Hsort Hmin Hout H0.
  assert (Hnew : new_freq out = [pow10 (log10 fmin - 0.5)]).
  { destruct (refine_rules _ _ _ _ _ _ Hout 0%nat H0) as (k & rest & fk & _ & Hfk & Hr).
    destruct Hr as [(_ & -> & Hv)|[(Hn & _)|(Hn & _)]]; try contradiction.
    rewrite Hv. rewrite (sorted_first_is_min freq fmin fk Hsort Hmin Hfk).
    reflexivity. }
  split; [exact Hnew|].
  rewrite (get_new_freq_short _ _ _ _ _ _ Hout). congruence.
Qed.

(** C3. High-frequency extension. For sorted frequencies, when the
    highest-frequency sample is the only one whose error exceeds [rtol] (the
    lowest-frequency sample does not), a call that returns proposes the
    single frequency [10^(log10(f_max) + 0.5)]. *)
Theorem sole_last_extension
    (freq : list R) (field : list complex) (rtol : R) (req_freq : option (list R))
    (out : output) (fmax : R) :
  StronglySorted Rle freq ->
  is_max fmax freq ->
  get_new_freq_full pchip_interpolate freq field rtol req_freq = Ok out ->
  ~ exceeds_at (error out) rtol 0 ->
  exceeds_at (error out) rtol (length freq - 1) ->
  (forall j, exceeds_at (error out) rtol j -> j = (length freq - 1)%nat) ->
  new_freq out = [pow10 (log10 fmax + 0.5)] /\
  get_new_freq pchip_interpolate freq field rtol req_freq
    = Ok [pow10 (log10 fmax + 0.5)].
Proof.
  intros Hsort Hmax Hout H0 Hlast Honly.
  assert (Hnew : new_freq out = [pow10 (log10 fmax + 0.5)]).
  { destruct (refine_rules _ _ _ _ _ _ Hout _ Hlast)
      as (k & rest & fk & Hier & Hfk & Hr).
    assert (Hk : k = (length freq - 1)%nat).
    { apply Honly. apply (ierr_exceeds _ _ _ _ _ _ Hout). rewrite Hier. left. reflexivity. }
    assert (Hrest : rest = []).
    { destruct rest as [|r rs]; [reflexivity|]. exfalso.
      assert (Hr' : In r (ierr out)) by (rewrite Hier; right; left; reflexivity).
      assert (Hkin : In k (ierr out)) by (rewrite Hier; left; reflexivity).
      apply (ierr_exceeds _ _ _ _ _ _ Hout) in Hr'. apply Honly in Hr'.
      destruct (get_new_freq_full_Ok _ _ _ _ _ _ Hout) as (_ & _ & _ & _ & _ & Hm & _).
      pose proof (masked_sorted (map (fun e => np_gt e rtol) (error out)) 0) as Hs.
      rewrite <- Hm, Hier in Hs. inversion Hs as [|? ? _ Hall]; subst.
      inversion Hall; subst. lia. }
    destruct Hr as [(Hc & _)|[(_ & _ & _ & _ & Hv)|(_ & Hc & _)]].
    - contradiction.
    - rewrite Hv. subst k.
      rewrite (sorted_last_is_max freq fmax fk Hsort Hmax Hfk). reflexivity.
    - exfalso. apply Hc. split; assumption. }
  split; [exact Hnew|].
  rewrite (get_new_freq_short _ _ _ _ _ _ Hout). congruence.
Qed.

(** C4. Interior bisection. When some error exceeds [rtol] and neither the
    low-extension rule (sample 0 fails) nor the sole-last rule (the last
    sample fails alone) applies, a call that returns takes the lowest failing
    index [k], finds a next frequency [f_(k+1)] in the array, and proposes the
    single frequency [10^((log10(f_k) + log10(f_(k+1))) / 2)]. *)
Theorem interior_bisection
    (freq : list R) (field : list complex) (rtol : R) (req_freq : option (list R))
    (out : output) :
  get_new_freq_full pchip_interpolate freq field rtol req_freq = Ok out ->
  (exists j, exceeds_at (error out) rtol j) ->
  ~ exceeds_at (error out) rtol 0 ->
  ~ (exceeds_at (error out) rtol (length freq - 1) /\
     forall j, exceeds_at (error out) rtol j -> j = (length freq - 1)%nat) ->
  exists k fk fk1,
    exceeds_at (error out) rtol k /\
    (forall j, exceeds_at (error out) rtol j -> (k <= j)%nat) /\
    nth_error freq k = Some fk /\
    nth_error freq (S k) = Some fk1 /\
    new_freq out = [pow10 ((log10 fk + log10 fk1) / 2)].
Proof.
  intros Hout [j Hj] H0 Hnot.
  destruct (refine_rules _ _ _ _ _ _ Hout _ Hj) as (k & rest & fk & Hier & Hfk & Hr).
  assert (Hin : forall i, In i (k :: rest) <-> exceeds_at (error out) rtol i).
  { intros i. rewrite <- Hier. apply (ierr_exceeds _ _ _ _ _ _ Hout). }
  assert (Hleast : forall i, exceeds_at (error out) rtol i -> (k <= i)%nat).
  { intros i Hi. apply Hin in Hi.
    destruct (get_new_freq_full_Ok _ _ _ _ _ _ Hout) as (_ & _ & _ & _ & _ & Hm & _).
    pose proof (masked_sorted (map (fun e => np_gt e rtol) (error out)) 0) as Hs.
    rewrite <- Hm, Hier in Hs. inversion Hs as [|? ? _ Hall]; subst.
    destruct Hi as [->|Hi]; [lia|].
    rewrite Forall_forall in Hall. apply Hall in Hi. lia. }
  destruct Hr as [(Hc & _)|[(_ & Hl & Hrest & Hk & _)|(_ & _ & fk1 & Hfk1 & Hv)]].
  - contradiction.
  - exfalso. apply Hnot. split; [exact Hl|].
    intros i Hi. apply Hin in Hi. subst rest. destruct Hi as [<-|[]]. exact Hk.
  - exists k, fk, fk1. split; [apply Hin; left; reflexivity|].
    split; [exact Hleast|]. split; [exact Hfk|]. split; [exact Hfk1|].
    rewrite Hv. do 2 f_equal. lra.
Qed.

End Claims.

(** Samples 0 and 1 of three fail: the proposal is half a decade below 1 Hz. *)
Lemma low_extension_priority_witness :
  exceeds_at [Fin 1; Fin 1; Fin 0] 0.1 0 /\
  exceeds_at [Fin 1; Fin 1; Fin 0] 0.1 1 /\
  get_new_freq interp_zero [1; 10; 100] [mkC 0 1; mkC 0 1; C0] 0.1 None
    = Ok [pow10 (log10 1 - 0.5)].
Proof.
  assert (H0 : exceeds_at [Fin 1; Fin 1; Fin 0] 0.1 0).
  { exists (Fin 1). split; [reflexivity | apply np_gt_Fin_true; lra]. }
  split; [exact H0|]. split.
  { exists (Fin 1). split; [reflexivity | apply np_gt_Fin_true; lra]. }
  refine (proj2 (low_extension_priority interp_zero [1; 10; 100]
                   [mkC 0 1; mkC 0 1; C0] 0.1 None _ 1 _ _ run_low_extension H0)).
  - repeat constructor; lra.
  - split; [left; reflexivity | repeat constructor; lra].
Defined.

(** Only the last of three samples fails: half a decade above 100 Hz. *)
Lemma sole_last_extension_witness :
  get_new_freq interp_zero [1; 10; 100] [C0; C0; mkC 0 1] 0.1 None
    = Ok [pow10 (log10 100 + 0.5)].
Proof.
  refine (proj2 (sole_last_extension interp_zero [1; 10; 100]
                   [C0; C0; mkC 0 1] 0.1 None _ 100 _ _ run_high_extension _ _ _)).
  - repeat constructor; lra.
  - split; [right; right; left; reflexivity | repeat constructor; lra].
  - apply (not_exceeds_at _ _ _ (Fin 0)); [reflexivity | apply np_gt_Fin_false; lra].
  - exists (Fin 1). split; [reflexivity | apply np_gt_Fin_true; lra].
  - intros j [e [He Hgt]]. destruct j as [|[|[|j]]]; simpl in He.
    + injection He as <-. rewrite np_gt_Fin_false in Hgt by lra. discriminate.
    + injection He as <-. rewrite np_gt_Fin_false in Hgt by lra. discriminate.
    + reflexivity.
    + destruct j; discriminate.
Defined.

(** Only the middle one of three samples fails: halfway between 10 and
    100 Hz on the log10 axis. *)
Lemma interior_bisection_witness :
  exists k fk fk1,
    exceeds_at [Fin 0; Fin 1; Fin 0] 0.1 k /\
    (forall j, exceeds_at [Fin 0; Fin 1; Fin 0] 0.1 j -> (k <= j)%nat) /\
    nth_error [1; 10; 100] k = Some fk /\
    nth_error [1; 10; 100] (S k) = Some fk1 /\
    [pow10 (log10 10 + (log10 100 - log10 10) / 2)]
      = [pow10 ((log10 fk + log10 fk1) / 2)].
Proof.
  apply (interior_bisection interp_zero [1; 10; 100] [C0; mkC 0 1; C0] 0.1 None
           (mkOut [pow10 (log10 10 + (log10 100 - log10 10) / 2)] [C0; C0; C0]
                  [Fin 0; Fin 1; Fin 0] [1%nat] None)).
  - exact run_bisection.
  - exists 1%nat, (Fin 1). split; [reflexivity | apply np_gt_Fin_true; lra].
  - apply (not_exceeds_at _ _ _ (Fin 0)); [reflexivity | apply np_gt_Fin_false; lra].
  - intros [Hl _]. revert Hl.
    apply (not_exceeds_at _ _ _ (Fin 0)); [reflexivity | apply np_gt_Fin_false; lra].
Defined.

(** ** Finite and undefined errors *)

Lemma rel_error_finite (i_fld field : list complex) (err : list npfloat) (m : R) :
  rel_error i_fld field = Ok err ->
  py_max (map Cabs field) = Ok m -> m <> 0 ->
  Forall (fun e => exists a, e = Fin a) err.
Proof.
  unfold rel_error. intros H Hm Hne. rewrite Hm in H. cbn [bind] in H.
  injection H as <-. apply Forall_forall. intros e He.
  apply in_map_iff in He. destruct He as (x & <- & _).
  unfold np_div. destruct (Req_dec_T m 0); [contradiction|].
  eexists. reflexivity.
Qed.

Lemma np_le_gt_Fin (a r : R) : np_le (Fin a) r = true <-> np_gt (Fin a) r = false.
Proof.
  simpl. destruct (Rle_dec a r), (Rlt_dec r a); split; intros H;
    try reflexivity; try discriminate; lra.
Qed.

Lemma none_exceeds_Forall (err : list npfloat) (rtol : R) :
  (forall j, ~ exceeds_at err rtol j) <->
  Forall (fun e => np_gt e rtol = false) err.
Proof.
  rewrite Forall_forall. split.
  - intros H e He. apply In_nth_error in He. destruct He as [j Hj].
    destruct (np_gt e rtol) eqn:E; [|reflexivity].
    exfalso. apply (H j). exists e. auto.
  - intros H j [e [He Hgt]]. apply nth_error_In in He. apply H in He. congruence.
Qed.

Lemma run_zero_field :
  get_new_freq_full interp_zero [1; 10] [C0; C0] 0.1 None
  = Ok (mkOut [] [C0; C0] [NaN; NaN] [] None).
Proof.
  rewrite get_new_freq_full_zero by reflexivity.
  unfold rel_error, py_max, C0. cbn [map combine fst snd im re fold_left].
  rewrite !Cabs_imag. rabs_eval. rmax_eval. cbn [bind map].
  rewrite !np_err_zero.
  destruct (Req_dec_T (0 - 0) 0) as [_|Hne]; [|exfalso; apply Hne; lra].
  reflexivity.
Qed.

Section Proposal.

Variable pchip_interpolate : list R -> list R -> R -> result R.

(** C5, as the code has it. A call that returns proposes at most one
    frequency, and none exactly when the set of failing indices is empty,
    that is when no error exceeds [rtol]. Where the largest field magnitude
    is not zero this is when every error is at most [rtol]. The result is a
    function of the arguments. *)
Theorem one_proposal_iff_failing
    (freq : list R) (field : list complex) (rtol : R) (req_freq : option (list R))
    (out : output) :
  get_new_freq_full pchip_interpolate freq field rtol req_freq = Ok out ->
  (length (new_freq out) <= 1)%nat /\
  (new_freq out = [] <-> ierr out = []) /\
  (ierr out = [] <-> forall j, ~ exceeds_at (error out) rtol j) /\
  (forall m, py_max (map Cabs field) = Ok m -> m <> 0 ->
     (new_freq out = [] <-> Forall (fun e => np_le e rtol = true) (error out))) /\
  (forall out',
     get_new_freq_full pchip_interpolate freq field rtol req_freq = Ok out' ->
     out' = out).
Proof.
  intros Hout.
  destruct (get_new_freq_full_Ok _ _ _ _ _ _ Hout)
    as (_ & _ & _ & _ & Herr & _ & Hnew).
  assert (H1 : (length (new_freq out) <= 1)%nat).
  { destruct Hnew as [[_ ->]|[_ (l & _ & ->)]]; simpl; lia. }
  assert (H2 : new_freq out = [] <-> ierr out = []).
  { destruct Hnew as [[Hi Hn]|[Hi (l & _ & Hn)]]; rewrite Hn; split; intros H;
      try assumption; try reflexivity; try discriminate; contradiction. }
  assert (H3 : ierr out = [] <-> forall j, ~ exceeds_at (error out) rtol j).
  { split.
    - intros Hnil j Hj. apply (ierr_exceeds _ _ _ _ _ _ Hout) in Hj.
      rewrite Hnil in Hj. destruct Hj.
    - intros Hnone. destruct (ierr out) as [|k rest] eqn:E; [reflexivity|].
      exfalso. apply (Hnone k). apply (ierr_exceeds _ _ _ _ _ _ Hout).
      rewrite E. left. reflexivity. }
  repeat (split; [assumption|]). split.
  - intros m Hm Hne. rewrite H2, H3, none_exceeds_Forall.
    pose proof (rel_error_finite _ _ _ _ Herr Hm Hne) as Hfin.
    rewrite !Forall_forall in *. split; intros H e He;
      destruct (Hfin e He) as [a ->]; apply np_le_gt_Fin; auto.
  - intros out' Hout'. congruence.
Qed.

End Proposal.

(** An all-zero field: nothing is proposed, yet the errors are nan and so
    not at most [rtol]. *)
Lemma zero_field_converges_on_nan :
  exists out,
    get_new_freq_full interp_zero [1; 10] [C0; C0] 0.1 None = Ok out /\
    new_freq out = [] /\
    ~ Forall (fun e => np_le e 0.1 = true) (error out).
Proof.
  eexists. split; [exact run_zero_field|]. split; [reflexivity|].
  simpl. intros H. inversion H; subst. discriminate.
Qed.

(** Two samples with errors 0: nothing is proposed. *)
Lemma one_proposal_iff_failing_witness :
  (length (@nil R) <= 1)%nat /\
  (@nil R = [] <-> @nil nat = []) /\
  (@nil nat = [] <-> forall j, ~ exceeds_at [Fin 0; Fin 0] 0.1 j) /\
  (forall m, py_max (map Cabs [mkC 1 0; mkC 1 0]) = Ok m -> m <> 0 ->
     (@nil R = [] <-> Forall (fun e => np_le e 0.1 = true) [Fin 0; Fin 0])) /\
  (forall out',
     get_new_freq_full interp_zero [1; 10] [mkC 1 0; mkC 1 0] 0.1 None = Ok out' ->
     out' = mkOut [] [C0; C0] [Fin 0; Fin 0] [] None).
Proof.
  exact (one_proposal_iff_failing interp_zero [1; 10] [mkC 1 0; mkC 1 0] 0.1 None
           _ run_converged).
Defined.

(** ** The maximum *)

Lemma fold_Rmax_spec (t : list R) :
  forall x, (fold_left Rmax t x = x \/ In (fold_left Rmax t x) t) /\
            x <= fold_left Rmax t x /\
            Forall (fun y => y <= fold_left Rmax t x) t.
Proof.
  induction t as [|y t IH]; intros x; simpl.
  - split; [left; reflexivity|]. split; [lra | constructor].
  - destruct (IH (Rmax x y)) as (Hin & Hle & Hall).
    pose proof (Rmax_l x y). pose proof (Rmax_r x y).
    split; [|split].
    + destruct Hin as [Heq|Hin]; [|right; right; exact Hin].
      rewrite Heq. unfold Rmax. destruct (Rle_dec x y); [right; left|left]; reflexivity.
    + lra.
    + constructor; [lra | exact Hall].
Qed.

Lemma py_max_is_max (l : list R) (m : R) : py_max l = Ok m -> is_max m l.
Proof.
  destruct l as [|x t]; [discriminate|]. simpl. intros H. injection H as <-.
  destruct (fold_Rmax_spec t x) as (Hin & Hle & Hall). split.
  - destruct Hin as [->|Hin]; [left; reflexivity | right; exact Hin].
  - constructor; assumption.
Qed.

Lemma py_max_zeros (field : list complex) :
  field <> [] -> Forall (fun z => z = C0) field ->
  py_max (map Cabs field) = Ok 0.
Proof.
  intros Hne Hall.
  destruct (py_max (map Cabs field)) as [m|e] eqn:E.
  - f_equal. apply py_max_is_max in E. destruct E as [Hin _].
    apply in_map_iff in Hin. destruct Hin as (z & <- & Hz).
    rewrite Forall_forall in Hall. rewrite (Hall z Hz).
    unfold C0. rewrite Cabs_imag. apply Rabs_R0.
  - destruct field; [congruence | discriminate].
Qed.

Section Estimator.

Variable pchip_interpolate : list R -> list R -> R -> result R.


(** C1, as the code has it. In a call that returns, the error of sample [i]
    is [|estimate.imag - field[i].imag|] divided by the largest complex
    magnitude [|field[j]|] over the samples. *)
Theorem error_normalised_by_magnitude
    (freq : list R) (field : list complex) (rtol : R) (req_freq : option (list R))
    (out : output) :
  get_new_freq_full pchip_interpolate freq field rtol req_freq = Ok out ->
  exists m,
    is_max m (map Cabs field) /\
    forall i, (i < length freq)%nat ->
      exists est z,
        estimate_at pchip_interpolate freq field (i_field out) i /\
        nth_error (i_field out) i = Some (Cimag est) /\
        nth_error field i = Some z /\
        nth_error (error out) i = Some (np_abs (np_div (est - im z) m)) /\
        (m <> 0 -> nth_error (error out) i = Some (Fin (Rabs (est - im z) / m))).
Proof.
  intros Hout.
  destruct (get_new_freq_full_Ok _ _ _ _ _ _ Hout)
    as (Hlf & _ & _ & Hest & Herr & _).
  destruct (rel_error_Ok _ _ _ Herr) as (m & Hm & _ & Hnth).
  exists m. split; [apply py_max_is_max; exact Hm|].
  intros i Hi. pose proof (Hest i Hi) as He.
  destruct He as (tmp_f & tmp_s & fi & v & _ & _ & _ & Hv).
  destruct (nth_error field i) as [z|] eqn:Hz;
    [|apply nth_error_None in Hz; lia].
  exists v, z. split; [apply Hest; exact Hi|]. split; [exact Hv|].
  split; [reflexivity|].
  pose proof (Hnth i (Cimag v) z Hv Hz) as Hval. simpl in Hval.
  split; [exact Hval|].
  intros Hne. rewrite Hval. f_equal. apply np_err_pos.
  assert (0 <= m); [|lra].
  apply py_max_is_max in Hm. destruct Hm as [Hin _].
  apply in_map_iff in Hin. destruct Hin as (c & <- & _). apply Cabs_nonneg.
Qed.

End Estimator.

Lemma Cabs_3_4 : Cabs (mkC 3 4) = 5.
Proof. unfold Cabs. simpl. apply sqrt_lem_1; lra. Qed.

Lemma run_complex_field :
  get_new_freq_full interp_zero [1; 10] [mkC 3 4; C0] 0.1 None
  = Ok (mkOut [pow10 (log10 1 - 0.5)] [C0; C0] [Fin (4 / 5); Fin 0] [0%nat] None).
Proof.
  rewrite get_new_freq_full_zero by reflexivity.
  unfold rel_error, py_max, C0. cbn [map combine fst snd im re fold_left].
  rewrite Cabs_3_4, Cabs_imag. rabs_eval. rmax_eval. cbn [bind map].
  rewrite !np_err_pos by lra. rabs_eval.
  replace (- (0 - 4) / 5) with (4 / 5) by lra. replace (0 / 5) with 0 by lra.
  cbn. rdec_eval. reflexivity.
Qed.

(** A sample [3 + 4j] with estimate 0: the code reports [4/5], the quotient
    by the largest absolute imaginary part is 1. *)
Lemma error_not_normalised_by_imag :
  exists out,
    get_new_freq_full interp_zero [1; 10] [mkC 3 4; C0] 0.1 None = Ok out /\
    nth_error (i_field out) 0 = Some (Cimag 0) /\
    nth_error (error out) 0 = Some (Fin (4 / 5)) /\
    rel_error_imag_norm (i_field out) [mkC 3 4; C0] = Ok [Fin 1; Fin 0] /\
    4 / 5 <> 1.
Proof.
  eexists. split; [exact run_complex_field|].
  split; [reflexivity|]. split; [reflexivity|]. split; [|lra].
  unfold rel_error_imag_norm, py_max, C0. cbn [map combine fst snd im re fold_left i_field].
  rabs_eval. rmax_eval. cbn [bind map].
  rewrite !np_err_pos by lra. rabs_eval.
  repeat f_equal; lra.
Qed.

Lemma error_normalised_by_magnitude_witness :
  exists m,
    is_max m (map Cabs [mkC 3 4; C0]) /\
    forall i, (i < 2)%nat ->
      exists est z,
        estimate_at interp_zero [1; 10] [mkC 3 4; C0] [C0; C0] i /\
        nth_error [C0; C0] i = Some (Cimag est) /\
        nth_error [mkC 3 4; C0] i = Some z /\
        nth_error [Fin (4 / 5); Fin 0] i = Some (np_abs (np_div (est - im z) m)) /\
        (m <> 0 -> nth_error [Fin (4 / 5); Fin 0] i
                   = Some (Fin (Rabs (est - im z) / m))).
Proof.
  exact (error_normalised_by_magnitude interp_zero [1; 10] [mkC 3 4; C0] 0.1 None
           _ run_complex_field).
Defined.


(** ** Calls that return *)

Section Returns.

Variable pchip_interpolate : list R -> list R -> R -> result R.

(** Once the interpolations of the loop have succeeded on arrays of equal,
    non-zero length, nothing after the loop raises. *)
Lemma get_new_freq_full_returns
    (freq : list R) (field : list complex) (rtol : R) (req_freq : option (list R))
    (i_fld : list complex) (i_fld2 : option (list complex)) :
  length field = length freq -> field <> [] ->
  for_each (loo_step pchip_interpolate freq field req_freq)
           (seq 0 (length freq)) (map (fun _ => C0) field, None)
    = Ok (i_fld, i_fld2) ->
  exists out,
    get_new_freq_full pchip_interpolate freq field rtol req_freq = Ok out /\
    i_field out = i_fld.
Proof.
  intros Hlen Hne Hloop. unfold get_new_freq_full. rewrite Hloop. cbn [bind].
  pose proof (loo_loop_Ok _ _ _ _ _ _ _ _ Hloop) as (Hli & _). simpl in Hli.
  rewrite length_map in Hli.
  destruct (rel_error i_fld field) as [err|e] eqn:Herr.
  2:{ unfold rel_error in Herr. destruct field; [congruence | discriminate]. }
  cbn [bind].
  destruct (rel_error_Ok _ _ _ Herr) as (m & _ & Hle & _).
  rewrite Hli, Nat.min_id in Hle.
  rewrite (np_mask_arange_Ok (length freq) (map (fun e => np_gt e rtol) err))
    by (rewrite length_map; congruence).
  cbn [bind].
  destruct (masked 0 (map (fun e => np_gt e rtol) err)) as [|k rest] eqn:Hm.
  - eexists. split; reflexivity.
  - assert (Hle' : length err = length freq) by congruence.
    destruct (new_lfreq_rules freq err rtol k rest Hle' Hm) as (fk & _ & Hr).
    cbn [length Nat.ltb Nat.leb].
    destruct Hr as [(_ & _ & ->)|[(_ & _ & _ & _ & ->)|(_ & _ & fk1 & _ & ->)]];
      eexists; split; reflexivity.
Qed.

(** C7, as the code has it. For a non-empty all-zero field no exception
    stands for the division by the zero maximum: when the interpolations of
    the loop succeed, the call returns; the error of a sample is nan where
    its estimate is 0 and inf elsewhere; and with all estimates 0 nothing
    fails and no frequency is proposed. *)
Theorem zero_field_returns_nan
    (freq : list R) (field : list complex) (rtol : R) (req_freq : option (list R))
    (i_fld : list complex) (i_fld2 : option (list complex)) :
  Forall (fun z => z = C0) field ->
  field <> [] ->
  length field = length freq ->
  for_each (loo_step pchip_interpolate freq field req_freq)
           (seq 0 (length freq)) (map (fun _ => C0) field, None)
    = Ok (i_fld, i_fld2) ->
  exists out,
    get_new_freq_full pchip_interpolate freq field rtol req_freq = Ok out /\
    i_field out = i_fld /\
    (forall i a, nth_error i_fld i = Some a ->
       nth_error (error out) i = Some (if Req_dec_T (im a) 0 then NaN else PInf)) /\
    (Forall (fun a => im a = 0) i_fld -> ierr out = [] /\ new_freq out = []).
Proof.
  intros Hzero Hne Hlen Hloop.
  destruct (get_new_freq_full_returns freq field rtol req_freq _ _ Hlen Hne Hloop)
    as (out & Hout & Hi).
  exists out. split; [exact Hout|]. split; [exact Hi|].
  destruct (get_new_freq_full_Ok _ _ _ _ _ _ Hout)
    as (_ & Hli & _ & _ & Herr & Hier & Hnew).
  destruct (rel_error_Ok _ _ _ Herr) as (m & Hm & _ & Hnth).
  rewrite (py_max_zeros field Hne Hzero) in Hm. injection Hm as <-.
  assert (Hval : forall i a, nth_error i_fld i = Some a ->
            nth_error (error out) i
              = Some (if Req_dec_T (im a) 0 then NaN else PInf)).
  { intros i a Ha. rewrite <- Hi in Ha.
    destruct (nth_error field i) as [z|] eqn:Hz.
    2:{ apply nth_error_None in Hz.
        assert (i < length (i_field out))%nat by (apply nth_error_Some; congruence).
        lia. }
    rewrite (Hnth i a z Ha Hz), np_err_zero.
    rewrite Forall_forall in Hzero. rewrite (Hzero z (nth_error_In _ _ Hz)).
    simpl. rewrite Rminus_0_r. reflexivity. }
  split; [exact Hval|].
  intros Hest.
  assert (Hnil : ierr out = []).
  { destruct (ierr out) as [|k rest] eqn:E; [reflexivity|]. exfalso.
    assert (Hk : In k (masked 0 (map (fun e => np_gt e rtol) (error out))))
      by (rewrite <- Hier; left; reflexivity).
    apply masked_exceeds in Hk. destruct Hk as (e & He & Hgt).
    destruct (nth_error i_fld k) as [a|] eqn:Ha.
    - rewrite (Hval k a Ha) in He. injection He as <-.
      rewrite Forall_forall in Hest. pose proof (Hest a (nth_error_In _ _ Ha)) as Hz.
      destruct (Req_dec_T (im a) 0); [discriminate | contradiction].
    - apply nth_error_None in Ha.
      assert (k < length (error out))%nat by (apply nth_error_Some; congruence).
      rewrite <- Hi in Ha.
      destruct (rel_error_Ok _ _ _ Herr) as (m' & _ & Hle & _). lia. }
  split; [exact Hnil|].
  destruct Hnew as [[_ Hn]|[Hc _]]; [exact Hn | contradiction].
Qed.

End Returns.

Lemma run_zero_field3 :
  get_new_freq_full interp_zero [1; 10; 100] [C0; C0; C0] 0.1 None
  = Ok (mkOut [] [C0; C0; C0] [NaN; NaN; NaN] [] None).
Proof.
  rewrite get_new_freq_full_zero by reflexivity.
  unfold rel_error, py_max, C0. cbn [map combine fst snd im re fold_left].
  rewrite !Cabs_imag. rabs_eval. rmax_eval. cbn [bind map].
  rewrite !np_err_zero.
  destruct (Req_dec_T (0 - 0) 0) as [_|Hne]; [|exfalso; apply Hne; lra].
  reflexivity.
Qed.

(** Three samples of an all-zero field: the call returns three nan errors
    and proposes nothing. *)
Lemma zero_field_raises_nothing :
  exists out,
    get_new_freq_full interp_zero [1; 10; 100] [C0; C0; C0] 0.1 None = Ok out /\
    error out = [NaN; NaN; NaN] /\
    new_freq out = [].
Proof.
  eexists. split; [exact run_zero_field3|]. split; reflexivity.
Qed.

Lemma zero_field_returns_nan_witness :
  exists out,
    get_new_freq_full interp_zero [1; 10] [C0; C0] 0.1 None = Ok out /\
    i_field out = [C0; C0] /\
    (forall i a, nth_error [C0; C0] i = Some a ->
       nth_error (error out) i = Some (if Req_dec_T (im a) 0 then NaN else PInf)) /\
    (Forall (fun a => im a = 0) [C0; C0] -> ierr out = [] /\ new_freq out = []).
Proof.
  apply (zero_field_returns_nan interp_zero [1; 10] [C0; C0] 0.1 None [C0; C0] None).
  - repeat constructor.
  - discriminate.
  - reflexivity.
  - exact (loo_loop_zero [1; 10] [C0; C0] 2 eq_refl 0%nat (le_n 2)).
Defined.

(** ** Logarithms *)

Lemma ln10_pos : 0 < ln 10.
Proof. rewrite <- ln_1. apply ln_increasing; lra. Qed.

Lemma pow10_log10 (f : R) : 0 < f -> pow10 (log10 f) = f.
Proof.
  intros Hf. unfold pow10, log10. pose proof ln10_pos.
  replace (ln f / ln 10 * ln 10) with (ln f) by (field; lra).
  apply exp_ln. exact Hf.
Qed.

Lemma pow10_increasing (x y : R) : x < y -> pow10 x < pow10 y.
Proof.
  intros H. unfold pow10. apply exp_increasing.
  apply Rmult_lt_compat_r; [apply ln10_pos | exact H].
Qed.




(** * The merge of line 760 *)

(** ** [np.unique] *)

Lemma uinsert_In (x : R) (i : nat) (tbl : list (R * nat)) (p : R * nat) :
  In p (uinsert x i tbl) -> p = (x, i) \/ In p tbl.
Proof.
  induction tbl as [|[y j] t IH]; simpl.
  - intros [<-|[]]. left. reflexivity.
  - destruct (Rlt_dec x y); [|destruct (Rlt_dec y x)]; simpl.
    + intros [<-|H]; auto.
    + intros [<-|H]; auto. destruct (IH H); auto.
    + intros [<-|H]; auto.
Qed.

Lemma uinsert_sorted (x : R) (i : nat) (tbl : list (R * nat)) :
  table_sorted tbl -> table_sorted (uinsert x i tbl).
Proof.
  unfold table_sorted. induction 1 as [|[y j] t Hs IH Hall]; simpl.
  - repeat constructor.
  - destruct (Rlt_dec x y) as [Hxy|Hxy]; [|destruct (Rlt_dec y x) as [Hyx|Hyx]].
    + constructor; [constructor; assumption|].
      constructor; [exact Hxy|].
      eapply Forall_impl; [|exact Hall]. intros q Hq. simpl in *.
      exact (Rlt_trans _ _ _ Hxy Hq).
    + constructor; [exact IH|].
      apply Forall_forall. intros q Hq. apply uinsert_In in Hq.
      destruct Hq as [->|Hq]; [exact Hyx|].
      rewrite Forall_forall in Hall. apply Hall. exact Hq.
    + constructor; assumption.
Qed.

(** The value inserted is in the table afterwards, and nothing is lost. *)
Lemma uinsert_values (x : R) (i : nat) (tbl : list (R * nat)) (y : R) :
  In y (map fst (uinsert x i tbl)) <-> y = x \/ In y (map fst tbl).
Proof.
  induction tbl as [|[z j] t IH]; simpl.
  - intuition.
  - destruct (Rlt_dec x z) as [Hxz|Hxz]; [|destruct (Rlt_dec z x) as [Hzx|Hzx]]; simpl.
    + intuition.
    + rewrite IH. intuition.
    + assert (x = z) by lra. subst. intuition.
Qed.

Lemma uinsert_length (x : R) (i : nat) (tbl : list (R * nat)) :
  (length (uinsert x i tbl) <= S (length tbl))%nat.
Proof.
  induction tbl as [|[y j] t IH]; simpl; [lia|].
  destruct (Rlt_dec x y); [|destruct (Rlt_dec y x)]; simpl; lia.
Qed.

Lemma ufold_spec (ps : list (R * nat)) :
  forall tbl,
    table_sorted tbl ->
    table_sorted (ufold ps tbl) /\
    (forall p, In p (ufold ps tbl) -> In p ps \/ In p tbl) /\
    (forall y, In y (map fst (ufold ps tbl)) <->
               In y (map fst ps) \/ In y (map fst tbl)) /\
    (length (ufold ps tbl) <= length ps + length tbl)%nat.
Proof.
  induction ps as [|[x i] ps IH]; intros tbl Hs.
  - simpl. split; [exact Hs|]. split; [auto|]. split; [intuition | lia].
  - change (ufold ((x, i) :: ps) tbl) with (ufold ps (uinsert x i tbl)).
    destruct (IH (uinsert x i tbl) (uinsert_sorted x i tbl Hs))
      as (Hsort & Hin & Hval & Hlen).
    split; [exact Hsort|]. split; [|split].
    + intros p Hp. destruct (Hin p Hp) as [H|H]; [left; right; exact H|].
      apply uinsert_In in H.
      destruct H as [->|H]; [left; left; reflexivity | right; exact H].
    + intros y. rewrite Hval, uinsert_values. simpl. intuition.
    + pose proof (uinsert_length x i tbl). simpl length. lia.
Qed.

Lemma combine_seq_In (l : list R) :
  forall s x i, In (x, i) (combine l (seq s (length l))) ->
                (s <= i)%nat /\ nth_error l (i - s) = Some x.
Proof.
  induction l as [|y t IH]; intros s x i; simpl; [intros []|].
  intros [H|H].
  - injection H as -> ->. split; [lia|]. rewrite Nat.sub_diag. reflexivity.
  - apply IH in H. destruct H as [Hle Hn]. split; [lia|].
    replace (i - s)%nat with (S (i - S s)) by lia. exact Hn.
Qed.

Lemma map_fst_combine_seq (l : list R) (s : nat) :
  map fst (combine l (seq s (length l))) = l.
Proof.
  revert s. induction l as [|y t IH]; intros s; simpl; [reflexivity|].
  f_equal. apply IH.
Qed.

Lemma table_sorted_values (tbl : list (R * nat)) :
  table_sorted tbl -> StronglySorted Rlt (map fst tbl).
Proof.
  induction 1 as [|p t Hs IH Hall]; simpl; constructor; [exact IH|].
  apply Forall_forall. intros y Hy. apply in_map_iff in Hy.
  destruct Hy as (q & <- & Hq). rewrite Forall_forall in Hall. apply Hall. exact Hq.
Qed.

(** What [np.unique(l, return_index=True)] returns: strictly increasing
    values, the same values as [l], and for each an index where [l] holds
    it. *)
Lemma np_unique_index_spec (l u : list R) (ai : list nat) :
  np_unique_index l = (u, ai) ->
  StronglySorted Rlt u /\
  (forall x, In x u <-> In x l) /\
  length ai = length u /\
  (length u <= length l)%nat /\
  (forall j x a, nth_error u j = Some x -> nth_error ai j = Some a ->
                 nth_error l a = Some x).
Proof.
  unfold np_unique_index, utable. intros H. injection H as <- <-.
  destruct (ufold_spec (combine l (seq 0 (length l))) [])
    as (Hsort & Hin & Hval & Hlen); [constructor|].
  split; [apply table_sorted_values; exact Hsort|]. split; [|split; [|split]].
  - intros x. rewrite Hval, map_fst_combine_seq. simpl. intuition.
  - rewrite !length_map. reflexivity.
  - rewrite length_map. rewrite length_combine, length_seq, Nat.min_id in Hlen.
    simpl in Hlen. lia.
  - intros j x a Hx Ha. rewrite nth_error_map in Hx, Ha.
    destruct (nth_error (ufold (combine l (seq 0 (length l))) []) j)
      as [[x' a']|] eqn:E; [|discriminate].
    simpl in Hx, Ha. injection Hx as ->. injection Ha as ->.
    apply nth_error_In in E. destruct (Hin _ E) as [Hc|[]].
    apply combine_seq_In in Hc. destruct Hc as [_ Hn].
    rewrite Nat.sub_0_r in Hn. exact Hn.
Qed.

(** A frequency given twice is kept once, with the index of its first
    occurrence. *)
Lemma np_unique_index_first :
  np_unique_index [10; 1; 10] = ([1; 10], [1%nat; 0%nat]).
Proof.
  unfold np_unique_index, utable, ufold. cbn. rdec_eval. cbn. rdec_eval.
  reflexivity.
Qed.

Lemma sorted_NoDup (l : list R) : StronglySorted Rlt l -> NoDup l.
Proof.
  induction 1 as [|x t Hs IH Hall]; constructor; [|exact IH].
  intros Hin. rewrite Forall_forall in Hall. apply Hall in Hin. lra.
Qed.

(** The merge: the frequencies come out strictly increasing, the fields
    stay with their frequencies, and the array does not shrink. *)
Lemma merge_spec (freq : list R) (fEM : list complex)
    (new_f : list R) (new_fEM : list complex) (freq' : list R) (fEM' : list complex) :
  merge freq fEM new_f new_fEM = Ok (freq', fEM') ->
  StronglySorted Rlt freq' /\
  length fEM' = length freq' /\
  (forall j f e, nth_error freq' j = Some f -> nth_error fEM' j = Some e ->
     exists a, nth_error (freq ++ new_f) a = Some f /\
               nth_error (fEM ++ new_fEM) a = Some e) /\
  (length freq' <= length freq + length new_f)%nat /\
  (NoDup freq -> (length freq <= length freq')%nat) /\
  (forall x, In x freq' <-> In x (freq ++ new_f)).
Proof.
  unfold merge. destruct (np_unique_index (freq ++ new_f)) as [u ai] eqn:Hu.
  intros H. bind_inv H as es Hes. injection H as <- <-.
  destruct (np_unique_index_spec _ _ _ Hu) as (Hsort & Hin & Hlai & Hlen & Hidx).
  unfold np_take in Hes.
  split; [exact Hsort|]. split; [|split; [|split; [|split]]].
  - rewrite (mapM_length _ _ _ Hes). exact Hlai.
  - intros j f e Hf He.
    destruct (mapM_nth _ _ _ Hes j e He) as (a & Ha & Hpa).
    exists a. split; [eapply Hidx; eauto | apply py_index_Ok; exact Hpa].
  - rewrite length_app in Hlen. exact Hlen.
  - intros Hnd. apply NoDup_incl_length; [exact Hnd|].
    intros x Hx. apply Hin. apply in_or_app. left. exact Hx.
  - exact Hin.
Qed.


(** * The reconstruction of lines 774-790 *)

Lemma list_two_last {A : Type} (l : list A) :
  (2 <= length l)%nat -> exists pre a b, l = pre ++ [a; b].
Proof.
  induction l as [|b l' _] using rev_ind; [simpl; lia|].
  induction l' as [|a pre _] using rev_ind; [simpl; lia|].
  intros _. exists pre, a, b. rewrite <- app_assoc. reflexivity.
Qed.

Lemma last_two_app {A : Type} (pre : list A) (a b : A) :
  last_two (pre ++ [a; b]) = [a; b].
Proof.
  unfold last_two. rewrite length_app. simpl length.
  replace (length pre + 2 - 2)%nat with (length pre + 0)%nat by lia.
  rewrite skipn_app, Nat.add_0_r, skipn_all.
  replace (length pre - length pre)%nat with 0%nat by lia. reflexivity.
Qed.

Lemma py_last_app {A : Type} (pre : list A) (a : A) : py_last (pre ++ [a]) = Ok a.
Proof.
  apply py_last_Ok. split; [destruct pre; discriminate|].
  rewrite length_app. simpl length.
  rewrite nth_error_app2 by lia.
  replace (length pre + 1 - 1 - length pre)%nat with 0%nat by lia. reflexivity.
Qed.

Lemma py_last_inv {A : Type} (l : list A) (a : A) :
  py_last l = Ok a -> exists pre, l = pre ++ [a].
Proof.
  induction l as [|x pre _] using rev_ind; [discriminate|].
  rewrite py_last_app. intros H. injection H as <-. exists pre. reflexivity.
Qed.

(** The ramp: three frequencies beyond the last one, in steps of the last
    log10 gap, with 0.75, 0.5 and 0.25 of the last field value. A ramp needs
    two frequencies. *)
Lemma ramp_Ok (freq : list R) (fEM : list complex)
    (freq_ramp : list R) (fEM_ramp : list complex) :
  ramp freq fEM = Ok (freq_ramp, fEM_ramp) ->
  exists pre fp fl fpre el,
    freq = pre ++ [fp; fl] /\ fEM = fpre ++ [el] /\
    freq_ramp = [pow10 (log10 fl + 1 * (log10 fl - log10 fp));
                 pow10 (log10 fl + 2 * (log10 fl - log10 fp));
                 pow10 (log10 fl + 3 * (log10 fl - log10 fp))] /\
    fEM_ramp = [Cscale 0.75 el; Cscale 0.5 el; Cscale 0.25 el].
Proof.
  unfold ramp. intros H.
  bind_inv H as ll Hll. bind_inv H as steps Hsteps. bind_inv H as el Hel.
  injection H as <- <-.
  destruct (py_last_inv _ _ Hel) as [fpre ->].
  destruct (Nat.le_gt_cases 2 (length freq)) as [H2|H2].
  - destruct (list_two_last freq H2) as (pre & fp & fl & ->).
    exists pre, fp, fl, fpre, el.
    rewrite map_app in Hll, Hsteps. cbn [map] in Hll, Hsteps.
    change [log10 fp; log10 fl] with ([log10 fp] ++ [log10 fl]) in Hll.
    rewrite app_assoc, py_last_app in Hll. injection Hll as <-.
    rewrite last_two_app in Hsteps. cbn in Hsteps. injection Hsteps as <-.
    split; [reflexivity|]. split; [reflexivity|]. split; [|reflexivity].
    cbn [map combine fst snd]. repeat f_equal; ring.
  - exfalso. destruct freq as [|f0 [|f1 t]]; simpl in *; try discriminate; lia.
Qed.

Section Reconstruction.

Variable pchip_interpolate : list R -> list R -> R -> result R.
Variable dipole : list R -> list complex.
Variable tem : list complex -> list R -> list R.
Variable rtol : R.
Variable ri : list nat.

(** What one pass that returns has computed, step by step. *)
Lemma loop_body_Ok (s s' : loop_state) :
  loop_body pchip_interpolate dipole tem rtol ri s = Ok s' ->
  exists out itmp_f itmp_s rtmp_f rtmp_s isfEM rsfEM,
    merge (st_freq s) (st_fEM s) (st_new_freq s) (dipole (st_new_freq s))
      = Ok (st_freq s', st_fEM s') /\
    get_new_freq_full pchip_interpolate (st_freq s') (st_fEM s') rtol
                      (Some (st_req_freq s)) = Ok out /\
    st_new_freq s' = new_freq out /\
    imag_arrays (st_freq s') (st_fEM s') = Ok (itmp_f, itmp_s) /\
    pchip_array pchip_interpolate itmp_f itmp_s (st_req_freq s) = Ok isfEM /\
    real_arrays (st_freq s') (st_fEM s') = Ok (rtmp_f, rtmp_s) /\
    pchip_array pchip_interpolate rtmp_f rtmp_s (st_req_freq s) = Ok rsfEM /\
    np_take (st_req_freq s) ri = Ok (st_req_freq s') /\
    np_take (map (fun p => mkC (fst p) (snd p)) (combine rsfEM isfEM)) ri
      = Ok (st_sfEM s') /\
    st_tEM s' = tem (st_sfEM s') (st_req_freq s').
Proof.
  unfold loop_body. intros H.
  bind_inv H as m Hm. destruct m as [freq fEM].
  bind_inv H as out Hout.
  bind_inv H as ia Hia. destruct ia as [itmp_f itmp_s].
  bind_inv H as isfEM His.
  bind_inv H as ra Hra. destruct ra as [rtmp_f rtmp_s].
  bind_inv H as rsfEM Hrs.
  bind_inv H as rq Hrq. bind_inv H as sf Hsf.
  injection H as <-. simpl.
  exists out, itmp_f, itmp_s, rtmp_f, rtmp_s, isfEM, rsfEM.
  repeat (split; [assumption || reflexivity|]). reflexivity.
Qed.

(** C9. The control points of the reconstruction. In a pass that returns,
    there are at least two frequencies [.., fp, fl] and a last field value
    [el]; the imaginary part is interpolated over a zero at 1e-100 Hz, the
    samples, three ramp points at [10^(log10 fl + k * (log10 fl - log10 fp))]
    for k = 1, 2, 3 with values 0.75, 0.5 and 0.25 times [el], and a zero at
    1e100 Hz; the real part over the same without the point at 1e-100 Hz. *)
Theorem reconstruction_control_points (s s' : loop_state) :
  loop_body pchip_interpolate dipole tem rtol ri s = Ok s' ->
  exists pre fp fl fpre el isfEM rsfEM,
    st_freq s' = pre ++ [fp; fl] /\
    st_fEM s' = fpre ++ [el] /\
    pchip_array pchip_interpolate
      (1e-100 :: st_freq s'
         ++ [pow10 (log10 fl + 1 * (log10 fl - log10 fp));
             pow10 (log10 fl + 2 * (log10 fl - log10 fp));
             pow10 (log10 fl + 3 * (log10 fl - log10 fp))]
         ++ [1e100])
      (0 :: map im (st_fEM s')
         ++ [0.75 * im el; 0.5 * im el; 0.25 * im el] ++ [0])
      (st_req_freq s) = Ok isfEM /\
    pchip_array pchip_interpolate
      (st_freq s'
         ++ [pow10 (log10 fl + 1 * (log10 fl - log10 fp));
             pow10 (log10 fl + 2 * (log10 fl - log10 fp));
             pow10 (log10 fl + 3 * (log10 fl - log10 fp))]
         ++ [1e100])
      (map re (st_fEM s')
         ++ [0.75 * re el; 0.5 * re el; 0.25 * re el] ++ [0])
      (st_req_freq s) = Ok rsfEM /\
    np_take (map (fun p => mkC (fst p) (snd p)) (combine rsfEM isfEM)) ri
      = Ok (st_sfEM s').
Proof.
  intros H.
  destruct (loop_body_Ok s s' H)
    as (out & itmp_f & itmp_s & rtmp_f & rtmp_s & isfEM & rsfEM &
        _ & _ & _ & Hia & His & Hra & Hrs & _ & Hsf & _).
  unfold imag_arrays in Hia. bind_inv Hia as r1 Hr1. destruct r1 as [fr er].
  injection Hia as <- <-.
  unfold real_arrays in Hra. rewrite Hr1 in Hra. cbn [bind] in Hra.
  injection Hra as <- <-.
  destruct (ramp_Ok _ _ _ _ Hr1) as (pre & fp & fl & fpre & el & Hf & He & -> & ->).
  exists pre, fp, fl, fpre, el, isfEM, rsfEM.
  repeat (split; [assumption|]). exact Hsf.
Qed.

End Reconstruction.

(** * The invariant of the loop *)

Section LoopInvariant.

Variable pchip_interpolate : list R -> list R -> R -> result R.
Variable dipole : list R -> list complex.
Variable tem : list complex -> list R -> list R.
Variable rtol : R.
Variable ri : list nat.

Lemma new_freq_at_most_one freq field req_freq (out : output) :
  get_new_freq_full pchip_interpolate freq field rtol req_freq = Ok out ->
  (length (new_freq out) <= 1)%nat.
Proof.
  intros Hout.
  destruct (get_new_freq_full_Ok _ _ _ _ _ _ Hout) as (_ & _ & _ & _ & _ & _ & Hnew).
  destruct Hnew as [[_ ->]|[_ (l & _ & ->)]]; simpl; lia.
Qed.

(** One pass keeps the arrays sorted and of equal length, and hands at most
    one frequency to the next pass. *)
Lemma loop_body_keeps (s s' : loop_state) :
  loop_body pchip_interpolate dipole tem rtol ri s = Ok s' ->
  StronglySorted Rlt (st_freq s') /\
  length (st_fEM s') = length (st_freq s') /\
  (length (st_new_freq s') <= 1)%nat.
Proof.
  intros H.
  destruct (loop_body_Ok _ _ _ _ _ s s' H)
    as (out & _ & _ & _ & _ & _ & _ & Hm & Hout & Hnf & _).
  destruct (merge_spec _ _ _ _ _ _ Hm) as (Hs & Hl & _).
  split; [exact Hs|]. split; [exact Hl|].
  rewrite Hnf. eapply new_freq_at_most_one. exact Hout.
Qed.

Lemma iterates_keep (seed req_freq : list R) (sfEM : list complex) (stEM : list R)
    (n : nat) (s : loop_state) :
  iterates pchip_interpolate dipole tem rtol ri
           (loop_init seed req_freq sfEM stEM) n s ->
  StronglySorted Rlt (st_freq s) /\
  length (st_fEM s) = length (st_freq s) /\
  (n = O -> st_freq s = [] /\ st_new_freq s = seed) /\
  (n <> O -> (length (st_new_freq s) <= 1)%nat).
Proof.
  induction 1 as [|n s s' Hit IH Hne Hbody].
  - simpl. split; [constructor|]. split; [reflexivity|].
    split; [auto | congruence].
  - destruct (loop_body_keeps s s' Hbody) as (Hs & Hl & Hn).
    split; [exact Hs|]. split; [exact Hl|]. split; [discriminate | auto].
Qed.

(** A run of the loop that ends has gone through [iterates] and ends with
    nothing left to evaluate. *)
Lemma run_loop_iterates (s0 : loop_state) (fuel : nat) :
  forall n s s',
    iterates pchip_interpolate dipole tem rtol ri s0 n s ->
    run_loop pchip_interpolate dipole tem rtol ri fuel s = Ok (Some s') ->
    exists m,
      iterates pchip_interpolate dipole tem rtol ri s0 m s' /\
      st_new_freq s' = [].
Proof.
  induction fuel as [|fuel IH]; intros n s s' Hit Hrun; simpl in Hrun;
    destruct (st_new_freq s) as [|f t] eqn:E; try discriminate.
  - injection Hrun as <-. exists n. split; assumption.
  - injection Hrun as <-. exists n. split; assumption.
  - bind_inv Hrun as s1 Hbody.
    apply (IH (S n) s1 s'); [|exact Hrun].
    apply (iterates_S _ _ _ _ _ _ n s s1 Hit); [rewrite E; discriminate | exact Hbody].
Qed.

(** C8, as the code has it. After every merge of the loop the frequencies
    are strictly increasing, hence distinct, and the fields are aligned with
    them: as many, each the field evaluated with its frequency. The array
    never shrinks. A pass after the first adds at most one frequency; the
    first pass merges the whole set of initial frequencies. *)
Theorem merge_keeps_sorted_and_grows
    (seed req_freq : list R) (sfEM : list complex) (stEM : list R)
    (n : nat) (s s' : loop_state) :
  iterates pchip_interpolate dipole tem rtol ri
           (loop_init seed req_freq sfEM stEM) n s ->
  loop_body pchip_interpolate dipole tem rtol ri s = Ok s' ->
  StronglySorted Rlt (st_freq s') /\
  NoDup (st_freq s') /\
  length (st_fEM s') = length (st_freq s') /\
  (forall j f e,
     nth_error (st_freq s') j = Some f -> nth_error (st_fEM s') j = Some e ->
     exists a,
       nth_error (st_freq s ++ st_new_freq s) a = Some f /\
       nth_error (st_fEM s ++ dipole (st_new_freq s)) a = Some e) /\
  (length (st_freq s) <= length (st_freq s'))%nat /\
  (n <> O -> (length (st_freq s') <= S (length (st_freq s)))%nat) /\
  (n = O -> (length (st_freq s') <= length seed)%nat).
Proof.
  intros Hit Hbody.
  destruct (iterates_keep _ _ _ _ _ _ Hit) as (Hs & Hl & H0 & Hn).
  destruct (loop_body_Ok _ _ _ _ _ s s' Hbody)
    as (out & _ & _ & _ & _ & _ & _ & Hm & _).
  destruct (merge_spec _ _ _ _ _ _ Hm) as (Hs' & Hl' & Hal & Hup & Hlow & _).
  split; [exact Hs'|]. split; [apply sorted_NoDup; exact Hs'|].
  split; [exact Hl'|]. split; [exact Hal|].
  split; [apply Hlow, sorted_NoDup, Hs|]. split.
  - intros Hne. specialize (Hn Hne). lia.
  - intros He. destruct (H0 He) as [Hf Hsd]. rewrite Hf, Hsd in Hup. exact Hup.
Qed.

End LoopInvariant.

(** ** Passes of the loop with the zero interpolant *)

Lemma mapM_interp_zero (x y q : list R) :
  mapM (interp_zero x y) q = Ok (map (fun _ => 0) q).
Proof.
  induction q as [|a t IH]; simpl; [reflexivity|]. rewrite IH. reflexivity.
Qed.

Lemma loo_step_zero_grid (freq : list R) (field : list complex) (rq : list R)
    (st2 : option (list complex)) (a : nat) :
  length field = length freq -> (a < length freq)%nat ->
  loo_step interp_zero freq field (Some rq) (map (fun _ => C0) field, st2) a
  = Ok (map (fun _ => C0) field, Some (map Cimag (map (fun _ => 0) rq))).
Proof.
  intros Hlen Ha. unfold loo_step, tmp_arrays, tmp_arrays2.
  destruct freq as [|f0 ft] eqn:Ef; [simpl in Ha; lia|]. rewrite <- Ef in *.
  assert (Hmx : py_max freq = Ok (fold_left Rmax ft f0)) by (rewrite Ef; reflexivity).
  rewrite Hmx. cbn [bind].
  destruct (nth_error freq a) as [fa|] eqn:Efa;
    [|apply nth_error_None in Efa; lia].
  assert (Hfa : py_index freq a = Ok fa) by (apply py_index_Ok; exact Efa).
  assert (Hset : py_setitem (map (fun _ => C0) field) a (Cimag 0)
                 = Ok (map (fun _ => C0) field)).
  { unfold py_setitem. rewrite length_map.
    destruct (Nat.ltb_spec a (length field)); [|lia].
    f_equal. apply splice_same. apply nth_error_zeros. lia. }
  destruct (Rlt_dec (fold_left Rmax ft f0) 1e4);
    cbn [bind fst snd]; rewrite Hfa; cbn [bind]; unfold interp_zero at 1;
    cbn [bind fst snd]; rewrite Hset; cbn [bind]; unfold pchip_array;
    rewrite mapM_interp_zero; reflexivity.
Qed.

Lemma loo_loop_zero_grid (freq : list R) (field : list complex) (rq : list R)
    (n : nat) :
  length field = length freq ->
  forall a st2, (a + S n <= length freq)%nat ->
    for_each (loo_step interp_zero freq field (Some rq)) (seq a (S n))
             (map (fun _ => C0) field, st2)
    = Ok (map (fun _ => C0) field, Some (map Cimag (map (fun _ => 0) rq))).
Proof.
  intros Hlen. induction n as [|n IH]; intros a st2 Ha.
  - cbn [seq for_each]. rewrite loo_step_zero_grid by (auto; lia). reflexivity.
  - change (seq a (S (S n))) with (a :: seq (S a) (S n)). cbn [for_each].
    rewrite loo_step_zero_grid by (auto; lia). cbn [bind]. apply IH. lia.
Qed.

Lemma get_new_freq_full_zero_grid (freq : list R) (field : list complex)
    (rtol : R) (rq : list R) :
  length field = length freq -> freq <> [] ->
  get_new_freq_full interp_zero freq field rtol (Some rq) =
    (err <- rel_error (map (fun _ => C0) field) field ;;
     ier <- np_mask (seq 0 (length freq)) (map (fun e => np_gt e rtol) err) ;;
     nf <- (if (0 <? length ier)%nat
            then l <- new_lfreq freq err ier rtol ;; Ok [pow10 l]
            else Ok []) ;;
     Ok (mkOut nf (map (fun _ => C0) field) err ier
               (Some (map Cimag (map (fun _ => 0) rq))))).
Proof.
  intros Hlen Hne. unfold get_new_freq_full.
  assert (Hn : exists n, length freq = S n).
  { destruct freq as [|f0 ft]; [congruence|]. exists (length ft). reflexivity. }
  destruct Hn as [n En].
  replace (for_each (loo_step interp_zero freq field (Some rq))
             (seq 0 (length freq)) (map (fun _ => C0) field, None))
    with (Ok (map (fun _ => C0) field, Some (map Cimag (map (fun _ => 0) rq)))).
  - reflexivity.
  - symmetry. rewrite En. apply loo_loop_zero_grid; [exact Hlen | lia].
Qed.

Lemma low_proposal_below_one : pow10 (log10 1 - 0.5) < 1.
Proof.
  rewrite <- (pow10_log10 1) at 2 by lra. apply pow10_increasing. lra.
Qed.

(** The first pass, from the initial frequencies 1 Hz and 10 Hz. *)
Lemma run_first_pass :
  loop_body interp_zero dipole_unit tem_imag 0.1 [0%nat]
            (loop_init [1; 10] [5] [C0] [0])
  = Ok (mkSt [1; 10] [mkC 0 1; mkC 0 1] [pow10 (log10 1 - 0.5)] [5] [C0] [0]).
Proof.
  unfold loop_body, loop_init, merge, np_unique_index, utable, ufold, dipole_unit.
  cbn. rdec_eval. cbn.
  rewrite get_new_freq_full_zero_grid by (reflexivity || discriminate).
  unfold rel_error, py_max, C0. cbn [map combine fst snd im re fold_left].
  rewrite !Cabs_imag. rabs_eval. rmax_eval. cbn [bind map].
  rewrite !np_err_pos by lra. rabs_eval.
  replace (1 / 1) with 1 by lra.
  cbn. rdec_eval. reflexivity.
Qed.

(** The second pass: the proposal of the first pass goes in front. *)
Lemma run_second_pass :
  loop_body interp_zero dipole_unit tem_imag 0.1 [0%nat]
            (mkSt [1; 10] [mkC 0 1; mkC 0 1] [pow10 (log10 1 - 0.5)] [5] [C0] [0])
  = Ok (mkSt [pow10 (log10 1 - 0.5); 1; 10] [mkC 0 1; mkC 0 1; mkC 0 1]
             [pow10 (log10 (pow10 (log10 1 - 0.5)) - 0.5)] [5] [C0] [0]).
Proof.
  pose proof low_proposal_below_one as Hy.
  unfold loop_body, merge, np_unique_index, utable, ufold, dipole_unit.
  cbn. rdec_eval. cbn. rdec_eval. cbn.
  rewrite get_new_freq_full_zero_grid by (reflexivity || discriminate).
  unfold rel_error, py_max, C0. cbn [map combine fst snd im re fold_left].
  rewrite !Cabs_imag. rabs_eval. rmax_eval. cbn [bind map].
  rewrite !np_err_pos by lra. rabs_eval.
  replace (1 / 1) with 1 by lra.
  cbn. rdec_eval. reflexivity.
Qed.

(** The first pass takes the array from no frequency to two. *)
Lemma first_pass_adds_the_seed :
  exists s',
    loop_body interp_zero dipole_unit tem_imag 0.1 [0%nat]
              (loop_init [1; 10] [5] [C0] [0]) = Ok s' /\
    length (st_freq (loop_init [1; 10] [5] [C0] [0])) = 0%nat /\
    length (st_freq s') = 2%nat.
Proof.
  eexists. split; [exact run_first_pass|]. split; reflexivity.
Qed.

Lemma merge_keeps_sorted_and_grows_witness :
  StronglySorted Rlt [pow10 (log10 1 - 0.5); 1; 10] /\
  NoDup [pow10 (log10 1 - 0.5); 1; 10] /\
  length [mkC 0 1; mkC 0 1; mkC 0 1] = length [pow10 (log10 1 - 0.5); 1; 10] /\
  (forall j f e,
     nth_error [pow10 (log10 1 - 0.5); 1; 10] j = Some f ->
     nth_error [mkC 0 1; mkC 0 1; mkC 0 1] j = Some e ->
     exists a,
       nth_error ([1; 10] ++ [pow10 (log10 1 - 0.5)]) a = Some f /\
       nth_error ([mkC 0 1; mkC 0 1] ++ dipole_unit [pow10 (log10 1 - 0.5)]) a
         = Some e) /\
  le (length [1; 10]) (length [pow10 (log10 1 - 0.5); 1; 10]) /\
  (1%nat <> O ->
   le (length [pow10 (log10 1 - 0.5); 1; 10]) (S (length [1; 10]))) /\
  (1%nat = O -> le (length [pow10 (log10 1 - 0.5); 1; 10]) (length [1; 10])).
Proof.
  apply (merge_keeps_sorted_and_grows interp_zero dipole_unit tem_imag 0.1 [0%nat]
           [1; 10] [5] [C0] [0] 1
           (mkSt [1; 10] [mkC 0 1; mkC 0 1] [pow10 (log10 1 - 0.5)] [5] [C0] [0])
           (mkSt [pow10 (log10 1 - 0.5); 1; 10] [mkC 0 1; mkC 0 1; mkC 0 1]
                 [pow10 (log10 (pow10 (log10 1 - 0.5)) - 0.5)] [5] [C0] [0])).
  - apply (iterates_S _ _ _ _ _ _ 0 (loop_init [1; 10] [5] [C0] [0])).
    + apply iterates_0.
    + discriminate.
    + exact run_first_pass.
  - exact run_second_pass.
Defined.

Lemma reconstruction_control_points_witness :
  exists pre fp fl fpre el isfEM rsfEM,
    [1; 10] = pre ++ [fp; fl] /\
    [mkC 0 1; mkC 0 1] = fpre ++ [el] /\
    pchip_array interp_zero
      (1e-100 :: [1; 10]
         ++ [pow10 (log10 fl + 1 * (log10 fl - log10 fp));
             pow10 (log10 fl + 2 * (log10 fl - log10 fp));
             pow10 (log10 fl + 3 * (log10 fl - log10 fp))]
         ++ [1e100])
      (0 :: map im [mkC 0 1; mkC 0 1]
         ++ [0.75 * im el; 0.5 * im el; 0.25 * im el] ++ [0])
      [5] = Ok isfEM /\
    pchip_array interp_zero
      ([1; 10]
         ++ [pow10 (log10 fl + 1 * (log10 fl - log10 fp));
             pow10 (log10 fl + 2 * (log10 fl - log10 fp));
             pow10 (log10 fl + 3 * (log10 fl - log10 fp))]
         ++ [1e100])
      (map re [mkC 0 1; mkC 0 1]
         ++ [0.75 * re el; 0.5 * re el; 0.25 * re el] ++ [0])
      [5] = Ok rsfEM /\
    np_take (map (fun p => mkC (fst p) (snd p)) (combine rsfEM isfEM)) [0%nat]
      = Ok [C0].
Proof.
  exact (reconstruction_control_points interp_zero dipole_unit tem_imag 0.1 [0%nat]
           (loop_init [1; 10] [5] [C0] [0]) _ run_first_pass).
Defined.

(** * Progress of the loop *)

Section Progress.

Variable pchip_interpolate : list R -> list R -> R -> result R.


End Progress.



(** * Further properties of [get_new_freq] *)

Section MoreGetNewFreq.

Variable pchip_interpolate : list R -> list R -> R -> result R.

(** X1. Empty and unequal arrays. A call with no frequency, or with arrays
    of different lengths, raises; with both arrays empty it is the
    [ValueError] of [max] on an empty sequence. *)
Theorem get_new_freq_needs_equal_arrays
    (freq : list R) (field : list complex) (rtol : R) (req_freq : option (list R)) :
  freq = [] \/ length field <> length freq ->
  exists e,
    get_new_freq_full pchip_interpolate freq field rtol req_freq = Raise e /\
    get_new_freq pchip_interpolate freq field rtol req_freq = Raise e /\
    (freq = [] -> field = [] -> e = ValueError).
Proof.
  intros H.
  destruct (get_new_freq_full pchip_interpolate freq field rtol req_freq)
    as [out|e] eqn:E.
  - exfalso.
    destruct (get_new_freq_full_Ok _ _ _ _ _ _ E) as (Hlen & _ & _ & _ & Herr & _).
    destruct H as [->|H]; [|contradiction].
    destruct field; [|discriminate].
    unfold get_new_freq_full in E. simpl in E. discriminate.
  - exists e. split; [reflexivity|]. split.
    + unfold get_new_freq. rewrite E. reflexivity.
    + intros -> ->. unfold get_new_freq_full in E. simpl in E. congruence.
Qed.

(** The loop of line 572 does the same to [i_field] with and without
    [req_freq]. *)
Lemma loo_loop_without_grid (freq : list R) (field : list complex) (rq : list R)
    (idx : list nat) :
  forall st st',
    for_each (loo_step pchip_interpolate freq field (Some rq)) idx st = Ok st' ->
    forall x,
      for_each (loo_step pchip_interpolate freq field None) idx (fst st, x)
      = Ok (fst st', x).
Proof.
  induction idx as [|i idx IH]; intros st st' H x.
  - simpl in *. injection H as <-. reflexivity.
  - cbn [for_each] in *. bind_inv H as st1 Hstep.
    assert (Hnone : loo_step pchip_interpolate freq field None (fst st, x) i
                    = Ok (fst st1, x)).
    { unfold loo_step in *.
      bind_inv Hstep as arrs Harrs. rewrite Harrs. cbn [bind].
      destruct arrs as [tmp_f tmp_s].
      bind_inv Hstep as fi Hfi. rewrite Hfi. cbn [bind].
      bind_inv Hstep as v Hv. rewrite Hv. cbn [bind].
      bind_inv Hstep as i_fld Hset. cbn [fst snd] in *. rewrite Hset. cbn [bind].
      bind_inv Hstep as arrs2 Harrs2. destruct arrs2 as [f2 s2].
      bind_inv Hstep as v2 Hv2. injection Hstep as <-. reflexivity. }
    rewrite Hnone. cbn [bind]. apply (IH st1 st' H).
Qed.

(** With a grid, every pass of the loop stores an interpolation of the
    grid's length. *)
Lemma loo_loop_grid_length (freq : list R) (field : list complex) (rq : list R)
    (idx : list nat) :
  forall st st',
    for_each (loo_step pchip_interpolate freq field (Some rq)) idx st = Ok st' ->
    idx <> [] ->
    exists v, snd st' = Some v /\ length v = length rq.
Proof.
  induction idx as [|i idx IH]; intros st st' H Hne; [congruence|].
  cbn [for_each] in H. bind_inv H as st1 Hstep.
  destruct idx as [|i' idx'].
  - simpl in H. injection H as <-.
    unfold loo_step in Hstep.
    bind_inv Hstep as arrs Harrs. destruct arrs as [tmp_f tmp_s].
    bind_inv Hstep as fi Hfi. bind_inv Hstep as v Hv.
    bind_inv Hstep as i_fld Hset.
    bind_inv Hstep as arrs2 Harrs2. destruct arrs2 as [f2 s2].
    bind_inv Hstep as v2 Hv2. injection Hstep as <-.
    exists (map Cimag v2). split; [reflexivity|].
    rewrite length_map. unfold pchip_array in Hv2.
    apply (mapM_length _ _ _ Hv2).
  - apply (IH st1 st' H). discriminate.
Qed.

(** X2. The grid is for display only. A call with [req_freq] that returns
    gives the same new frequency, estimates, errors and failing indices as
    the call without it, which returns too; it adds the interpolation at the
    grid, one value per grid frequency. *)
Theorem req_freq_only_adds_i_field2
    (freq : list R) (field : list complex) (rtol : R) (rq : list R) (out : output) :
  get_new_freq_full pchip_interpolate freq field rtol (Some rq) = Ok out ->
  get_new_freq_full pchip_interpolate freq field rtol None
    = Ok (mkOut (new_freq out) (i_field out) (error out) (ierr out) None) /\
  exists v, i_field2 out = Some v /\ length v = length rq.
Proof.
  unfold get_new_freq_full. intros H.
  bind_inv H as st Hloop. destruct st as [i_fld i_fld2].
  pose proof (loo_loop_without_grid _ _ _ _ _ _ Hloop None) as Hnone.
  cbn [fst] in Hnone. rewrite Hnone. cbn [bind].
  bind_inv H as err Herr. rewrite Herr. cbn [bind].
  bind_inv H as ier Hier. rewrite Hier. cbn [bind].
  bind_inv H as nf Hnf. rewrite Hnf. cbn [bind].
  injection H as <-. split; [reflexivity|]. cbn [i_field2].
  assert (Hidx : seq 0 (length freq) <> []).
  { destruct freq as [|f0 ft]; [|discriminate].
    simpl in Hloop. injection Hloop as <- _.
    apply np_mask_arange in Hier. destruct Hier as [Hl _].
    destruct (rel_error_Ok _ _ _ Herr) as (m & Hm & Hle & _).
    rewrite !length_map in *. rewrite Nat.min_id in Hle.
    destruct field; [discriminate | simpl in *; lia]. }
  destruct (loo_loop_grid_length _ _ _ _ _ _ Hloop Hidx) as (v & Hv & Hlv).
  exists v. split; assumption.
Qed.

End MoreGetNewFreq.

Lemma get_new_freq_needs_equal_arrays_witness :
  exists e,
    get_new_freq_full interp_zero [1; 10] [C0] 0.1 None = Raise e /\
    get_new_freq interp_zero [1; 10] [C0] 0.1 None = Raise e /\
    ([1; 10] = [] -> [C0] = [] -> e = ValueError).
Proof.
  apply (get_new_freq_needs_equal_arrays interp_zero [1; 10] [C0] 0.1 None).
  right. simpl. lia.
Defined.

Lemma run_bisection_grid :
  get_new_freq_full interp_zero [1; 10; 100] [C0; mkC 0 1; C0] 0.1 (Some [5; 50])
  = Ok (mkOut [pow10 (log10 10 + (log10 100 - log10 10) / 2)] [C0; C0; C0]
              [Fin 0; Fin 1; Fin 0] [1%nat] (Some [Cimag 0; Cimag 0])).
Proof.
  rewrite get_new_freq_full_zero_grid by (reflexivity || discriminate).
  unfold rel_error, py_max, C0. cbn [map combine fst snd im re fold_left].
  rewrite ?Cabs_imag. rabs_eval. rmax_eval. cbn [bind map].
  rewrite ?np_err_pos by lra. rabs_eval.
  replace (1 / 1) with 1 by lra. replace (0 / 1) with 0 by lra.
  cbn. rdec_eval. reflexivity.
Qed.

Lemma req_freq_only_adds_i_field2_witness :
  get_new_freq_full interp_zero [1; 10; 100] [C0; mkC 0 1; C0] 0.1 None
    = Ok (mkOut [pow10 (log10 10 + (log10 100 - log10 10) / 2)] [C0; C0; C0]
                [Fin 0; Fin 1; Fin 0] [1%nat] None) /\
  exists v, Some [Cimag 0; Cimag 0] = Some v /\ length v = 2%nat.
Proof.
  exact (req_freq_only_adds_i_field2 interp_zero [1; 10; 100] [C0; mkC 0 1; C0]
           0.1 [5; 50] _ run_bisection_grid).
Defined.

(** ** The proposals in closed form *)

Lemma pow10_plus (x y : R) : pow10 (x + y) = pow10 x * pow10 y.
Proof.
  unfold pow10. rewrite Rmult_plus_distr_r. apply exp_plus.
Qed.

Lemma ln_sqrt_half (x : R) : 0 < x -> ln (sqrt x) = ln x / 2.
Proof.
  intros Hx. assert (Hs : 0 < sqrt x) by (apply sqrt_lt_R0; exact Hx).
  rewrite <- (sqrt_sqrt x) at 2 by lra. rewrite ln_mult by exact Hs. lra.
Qed.

Lemma pow10_half : pow10 0.5 = sqrt 10.
Proof.
  unfold pow10. rewrite <- (exp_ln (sqrt 10)) by (apply sqrt_lt_R0; lra).
  f_equal. rewrite ln_sqrt_half by lra. lra.
Qed.

Lemma pow10_minus_half : pow10 (Ropp 0.5) = / sqrt 10.
Proof.
  assert (Hs : 0 < sqrt 10) by (apply sqrt_lt_R0; lra).
  apply (Rmult_eq_reg_l (sqrt 10)); [|lra].
  rewrite Rinv_r by lra. rewrite <- pow10_half, <- pow10_plus.
  replace (0.5 + Ropp 0.5) with 0 by lra. unfold pow10. rewrite Rmult_0_l. apply exp_0.
Qed.

Lemma pow10_log_mean (a b : R) :
  0 < a -> 0 < b -> pow10 ((log10 a + log10 b) / 2) = sqrt (a * b).
Proof.
  intros Ha Hb. pose proof ln10_pos as H10.
  assert (Hab : 0 < a * b) by (apply Rmult_lt_0_compat; assumption).
  unfold pow10, log10.
  rewrite <- (exp_ln (sqrt (a * b))) by (apply sqrt_lt_R0; exact Hab).
  f_equal. rewrite ln_sqrt_half by exact Hab. rewrite ln_mult by assumption.
  field. lra.
Qed.

Section ClosedForms.

Variable pchip_interpolate : list R -> list R -> R -> result R.

(** X3. The proposals in closed form. For positive frequencies (as real
    numbers), a call proposes exactly one frequency [f] at a time. With [k]
    the least failing index: [f] is the first frequency divided by
    [sqrt 10] when sample 0 fails; it is the last frequency times [sqrt 10]
    when sample 0 passes and the last sample is the only one that fails;
    in every other case [f_(k+1)] is in the array and [f] is the geometric
    mean of [f_k] and [f_(k+1)]. The three cases exclude each other, so
    they determine [f]. *)
Theorem proposal_closed_forms
    (freq : list R) (field : list complex) (rtol : R) (req_freq : option (list R))
    (out : output) (f : R) :
  Forall (fun x => 0 < x) freq ->
  get_new_freq_full pchip_interpolate freq field rtol req_freq = Ok out ->
  In f (new_freq out) ->
  new_freq out = [f] /\
  exists k fk,
    nth_error freq k = Some fk /\
    exceeds_at (error out) rtol k /\
    (forall j, exceeds_at (error out) rtol j -> (k <= j)%nat) /\
    ((exceeds_at (error out) rtol 0 /\ k = O /\ f = fk / sqrt 10) \/
     (~ exceeds_at (error out) rtol 0 /\
      (forall j, exceeds_at (error out) rtol j -> j = (length freq - 1)%nat) /\
      k = (length freq - 1)%nat /\ f = fk * sqrt 10) \/
     (~ exceeds_at (error out) rtol 0 /\
      ~ (forall j, exceeds_at (error out) rtol j -> j = (length freq - 1)%nat) /\
      exists fk1, nth_error freq (S k) = Some fk1 /\ f = sqrt (fk * fk1))).
Proof.
  intros Hpos Hout Hf.
  destruct (get_new_freq_full_Ok _ _ _ _ _ _ Hout)
    as (_ & _ & _ & _ & _ & Hm & Hnew).
  destruct Hnew as [[_ Hn]|[Hne _]]; [rewrite Hn in Hf; destruct Hf|].
  destruct (ierr out) as [|k0 rest0] eqn:E; [congruence|]. clear Hne.
  assert (Hk0 : exceeds_at (error out) rtol k0).
  { apply (ierr_exceeds _ _ _ _ _ _ Hout). rewrite E. left. reflexivity. }
  destruct (refine_rules _ _ _ _ _ _ Hout _ Hk0) as (k & rest & fk & Hier & Hfk & Hr).
  rewrite E in Hier. injection Hier as -> ->.
  assert (Hin : forall i, In i (k :: rest) <-> exceeds_at (error out) rtol i).
  { intros i. rewrite <- E. apply (ierr_exceeds _ _ _ _ _ _ Hout). }
  assert (Hrest : Forall (fun j => (k < j)%nat) rest).
  { pose proof (masked_sorted (map (fun e => np_gt e rtol) (error out)) 0) as Hso.
    rewrite <- Hm in Hso. inversion Hso; subst. assumption. }
  assert (Hleast : forall j, exceeds_at (error out) rtol j -> (k <= j)%nat).
  { intros j Hj. apply Hin in Hj. destruct Hj as [->|Hj]; [lia|].
    rewrite Forall_forall in Hrest. apply Hrest in Hj. lia. }
  rewrite Forall_forall in Hpos.
  assert (Hfkpos : 0 < fk) by (apply Hpos; eapply nth_error_In; eauto).
  assert (Hone : new_freq out = [f]).
  { destruct Hr as [(_ & _ & Hv)|[(_ & _ & _ & _ & Hv)|(_ & _ & fk1 & _ & Hv)]];
      rewrite Hv in Hf |- *; destruct Hf as [<-|[]]; reflexivity. }
  split; [exact Hone|].
  exists k, fk. split; [exact Hfk|]. split; [exact Hk0|]. split; [exact Hleast|].
  destruct Hr as [(H0 & -> & Hv)|[(H0 & Hl & -> & -> & Hv)|(H0 & Hl & fk1 & Hfk1 & Hv)]];
    rewrite Hv in Hf; destruct Hf as [<-|[]].
  - left. split; [exact H0|]. split; [reflexivity|].
    unfold Rminus. rewrite pow10_plus, pow10_log10, pow10_minus_half by exact Hfkpos.
    reflexivity.
  - right; left. split; [exact H0|]. split.
    + intros j Hj. apply Hin in Hj. destruct Hj as [<-|[]]. reflexivity.
    + split; [reflexivity|].
      rewrite pow10_plus, pow10_log10, pow10_half by exact Hfkpos. reflexivity.
  - right; right. split; [exact H0|]. split.
    + intros Hall. apply Hl.
      pose proof (Hall k Hk0) as Hk. subst k. split; [exact Hk0|].
      destruct rest as [|r rest']; [reflexivity|].
      assert (Hr : exceeds_at (error out) rtol r) by (apply Hin; right; left; reflexivity).
      apply Hall in Hr. inversion Hrest; subst. lia.
    + exists fk1. split; [exact Hfk1|].
      assert (Hfk1pos : 0 < fk1) by (apply Hpos; eapply nth_error_In; eauto).
      replace (log10 fk + (log10 fk1 - log10 fk) / 2)
        with ((log10 fk + log10 fk1) / 2) by lra.
      apply pow10_log_mean; assumption.
Qed.

End ClosedForms.

Lemma proposal_closed_forms_witness :
  [pow10 (log10 10 + (log10 100 - log10 10) / 2)]
    = [pow10 (log10 10 + (log10 100 - log10 10) / 2)] /\
  exists k fk,
    nth_error [1; 10; 100] k = Some fk /\
    exceeds_at [Fin 0; Fin 1; Fin 0] 0.1 k /\
    (forall j, exceeds_at [Fin 0; Fin 1; Fin 0] 0.1 j -> (k <= j)%nat) /\
    ((exceeds_at [Fin 0; Fin 1; Fin 0] 0.1 0 /\ k = O /\
      pow10 (log10 10 + (log10 100 - log10 10) / 2) = fk / sqrt 10) \/
     (~ exceeds_at [Fin 0; Fin 1; Fin 0] 0.1 0 /\
      (forall j, exceeds_at [Fin 0; Fin 1; Fin 0] 0.1 j -> j = 2%nat) /\
      k = 2%nat /\
      pow10 (log10 10 + (log10 100 - log10 10) / 2) = fk * sqrt 10) \/
     (~ exceeds_at [Fin 0; Fin 1; Fin 0] 0.1 0 /\
      ~ (forall j, exceeds_at [Fin 0; Fin 1; Fin 0] 0.1 j -> j = 2%nat) /\
      exists fk1, nth_error [1; 10; 100] (S k) = Some fk1 /\
                  pow10 (log10 10 + (log10 100 - log10 10) / 2) = sqrt (fk * fk1))).
Proof.
  apply (proposal_closed_forms interp_zero [1; 10; 100] [C0; mkC 0 1; C0] 0.1 None
           (mkOut [pow10 (log10 10 + (log10 100 - log10 10) / 2)] [C0; C0; C0]
                  [Fin 0; Fin 1; Fin 0] [1%nat] None)).
  - repeat constructor; lra.
  - exact run_bisection.
  - left. reflexivity.
Defined.

(** * The arrays handed to the interpolation *)

Lemma sorted_app (l1 l2 : list R) :
  StronglySorted Rlt l1 -> StronglySorted Rlt l2 ->
  (forall x y, In x l1 -> In y l2 -> x < y) ->
  StronglySorted Rlt (l1 ++ l2).
Proof.
  induction 1 as [|a t Hs IH Hall]; intros H2 Hlt; simpl; [exact H2|].
  constructor.
  - apply IH; [exact H2|]. intros x y Hx Hy. apply Hlt; [right; exact Hx | exact Hy].
  - apply Forall_app. split; [exact Hall|].
    apply Forall_forall. intros y Hy. apply Hlt; [left; reflexivity | exact Hy].
Qed.

Lemma delete_at_In {A : Type} (i : nat) (l : list A) (x : A) :
  In x (delete_at i l) -> In x l.
Proof.
  revert i. induction l as [|a t IH]; intros i H.
  - unfold delete_at in H. rewrite firstn_nil, skipn_nil in H. destruct H.
  - destruct i as [|i]; [right; exact H|].
    change (delete_at (S i) (a :: t)) with (a :: delete_at i t) in H.
    destruct H as [<-|H]; [left; reflexivity | right; eapply IH; exact H].
Qed.

Lemma delete_at_length {A : Type} (i : nat) (l : list A) :
  (i < length l)%nat -> length (delete_at i l) = (length l - 1)%nat.
Proof.
  intros Hi. unfold delete_at. rewrite length_app, length_firstn, length_skipn. lia.
Qed.

Lemma sorted_delete_at (l : list R) :
  StronglySorted Rlt l -> forall i, StronglySorted Rlt (delete_at i l).
Proof.
  induction 1 as [|a t Hs IH Hall]; intros i.
  - unfold delete_at. rewrite firstn_nil, skipn_nil. constructor.
  - destruct i as [|i]; [exact Hs|].
    change (delete_at (S i) (a :: t)) with (a :: delete_at i t).
    constructor; [apply IH|].
    apply Forall_forall. intros x Hx. apply delete_at_In in Hx.
    rewrite Forall_forall in Hall. apply Hall. exact Hx.
Qed.

(** X4. The leave-one-out arrays are valid interpolation data. For strictly
    increasing frequencies between 1e-100 and 1e100 Hz, and as many fields,
    the frequencies handed to the interpolation for any sample [i] are
    strictly increasing, and there is one value for each. *)
Theorem loo_arrays_strictly_increasing
    (freq : list R) (field : list complex) (i : nat) :
  StronglySorted Rlt freq ->
  Forall (fun x => 1e-100 < x < 1e100) freq ->
  length field = length freq ->
  (i < length freq)%nat ->
  exists tmp_f tmp_s,
    tmp_arrays freq field i = Ok (tmp_f, tmp_s) /\
    StronglySorted Rlt tmp_f /\
    length tmp_s = length tmp_f.
Proof.
  intros Hs Hrange Hlen Hi.
  destruct (py_max freq) as [mx|e] eqn:Hmx;
    [|destruct freq; [simpl in Hi; lia | discriminate]].
  pose proof (py_max_is_max _ _ Hmx) as [_ Hmax].
  rewrite Forall_forall in Hrange, Hmax.
  assert (Hd : StronglySorted Rlt (delete_at i freq)) by (apply sorted_delete_at; exact Hs).
  assert (Hdl : length (delete_at i field) = length (delete_at i freq)).
  { rewrite !delete_at_length by lia. lia. }
  unfold tmp_arrays. rewrite Hmx. cbn [bind].
  destruct (Rlt_dec mx 1e4) as [Hlt|Hge]; eexists; eexists;
    (split; [reflexivity|]); split.
  - change (1e-100 :: delete_at i freq ++ [1e4; 1e100])
      with ([1e-100] ++ delete_at i freq ++ [1e4; 1e100]).
    apply sorted_app; [repeat constructor | |].
    + apply sorted_app; [exact Hd | repeat constructor; lra |].
      intros x y Hx Hy. apply delete_at_In in Hx.
      pose proof (Hmax x Hx). destruct Hy as [<-|[<-|[]]]; lra.
    + intros x y [<-|[]] Hy. apply in_app_or in Hy.
      destruct Hy as [Hy|[<-|[<-|[]]]]; [|lra|lra].
      apply delete_at_In in Hy. apply Hrange in Hy. lra.
  - simpl. rewrite !length_app, Hdl. reflexivity.
  - change (1e-100 :: delete_at i freq ++ [1e100])
      with ([1e-100] ++ delete_at i freq ++ [1e100]).
    apply sorted_app; [repeat constructor | |].
    + apply sorted_app; [exact Hd | repeat constructor |].
      intros x y Hx [<-|[]]. apply delete_at_In in Hx. apply Hrange in Hx. lra.
    + intros x y [<-|[]] Hy. apply in_app_or in Hy.
      destruct Hy as [Hy|[<-|[]]]; [|lra].
      apply delete_at_In in Hy. apply Hrange in Hy. lra.
  - simpl. rewrite !length_app, Hdl. reflexivity.
Qed.

Lemma loo_arrays_strictly_increasing_witness :
  exists tmp_f tmp_s,
    tmp_arrays [1; 10; 100] [C0; mkC 0 1; C0] 1 = Ok (tmp_f, tmp_s) /\
    StronglySorted Rlt tmp_f /\
    length tmp_s = length tmp_f.
Proof.
  apply (loo_arrays_strictly_increasing [1; 10; 100] [C0; mkC 0 1; C0] 1).
  - repeat constructor; lra.
  - repeat constructor; lra.
  - reflexivity.
  - simpl. lia.
Defined.

Lemma ramp_returns (pre : list R) (fp fl : R) (fpre : list complex) (el : complex) :
  ramp (pre ++ [fp; fl]) (fpre ++ [el])
  = Ok ([pow10 (1 * log10 fl + 1 * (log10 fl - log10 fp));
         pow10 (1 * log10 fl + 2 * (log10 fl - log10 fp));
         pow10 (1 * log10 fl + 3 * (log10 fl - log10 fp))],
        [Cscale 0.75 el; Cscale 0.5 el; Cscale 0.25 el]).
Proof.
  unfold ramp. rewrite map_app. cbn [map].
  change [log10 fp; log10 fl] with ([log10 fp] ++ [log10 fl]) at 1.
  rewrite app_assoc, py_last_app. cbn [bind].
  rewrite last_two_app. cbn [np_diff np_mul map bind].
  rewrite py_last_app. reflexivity.
Qed.

(** X5. The reconstruction needs two frequencies. With one field for each
    frequency, the control arrays of lines 774-787 are built exactly when
    there are at least two frequencies: without any frequency line 775
    raises an [IndexError] ([lfreq[-1]]), and with a single one a
    [ValueError], because the three ramp steps meet an empty difference.
    When they are built, [itmp_f] is [rtmp_f] with 1e-100 in front,
    [rtmp_f] holds the frequencies, three ramp points and 1e100, and each
    value array has one value for each control frequency. *)
Theorem reconstruction_needs_two_frequencies (freq : list R) (fEM : list complex) :
  length fEM = length freq ->
  (freq = [] ->
   imag_arrays freq fEM = Raise IndexError /\
   real_arrays freq fEM = Raise IndexError) /\
  (length freq = 1%nat ->
   imag_arrays freq fEM = Raise ValueError /\
   real_arrays freq fEM = Raise ValueError) /\
  ((2 <= length freq)%nat ->
   exists freq_ramp itmp_s rtmp_s,
     imag_arrays freq fEM = Ok (1e-100 :: freq ++ freq_ramp ++ [1e100], itmp_s) /\
     real_arrays freq fEM = Ok (freq ++ freq_ramp ++ [1e100], rtmp_s) /\
     length freq_ramp = 3%nat /\
     length itmp_s = (length freq + 5)%nat /\
     length rtmp_s = (length freq + 4)%nat).
Proof.
  intros Hlen. split; [|split].
  - intros ->. split; reflexivity.
  - intros H1. destruct freq as [|f [|g t]]; try discriminate H1.
    split; reflexivity.
  - intros H2.
    destruct (list_two_last freq H2) as (pre & fp & fl & ->).
    assert (Hne : fEM <> []).
    { intros ->. rewrite length_app in Hlen. simpl in Hlen. lia. }
    destruct (exists_last Hne) as (fpre & el & ->).
    unfold imag_arrays, real_arrays. rewrite ramp_returns. cbn [bind map].
    do 3 eexists. split; [reflexivity|]. split; [reflexivity|].
    split; [reflexivity|].
    simpl. rewrite !length_app, !length_map, Hlen. simpl.
    rewrite !length_app. simpl. split; lia.
Qed.

(** The frequencies 1 Hz and 10 Hz: the arrays are built, with the ramp
    behind 10 Hz. *)
Lemma reconstruction_needs_two_frequencies_witness :
  exists freq_ramp itmp_s rtmp_s,
    imag_arrays [1; 10] [mkC 0 1; mkC 0 1]
      = Ok (1e-100 :: [1; 10] ++ freq_ramp ++ [1e100], itmp_s) /\
    real_arrays [1; 10] [mkC 0 1; mkC 0 1]
      = Ok ([1; 10] ++ freq_ramp ++ [1e100], rtmp_s) /\
    length freq_ramp = 3%nat /\
    length itmp_s = 7%nat /\
    length rtmp_s = 6%nat.
Proof.
  destruct (reconstruction_needs_two_frequencies [1; 10] [mkC 0 1; mkC 0 1] eq_refl)
    as (_ & _ & H).
  apply H. simpl. lia.
Defined.

(** * More about the merge *)

Lemma uinsert_keeps (x : R) (i : nat) (tbl : list (R * nat)) (p : R * nat) :
  In p tbl -> In p (uinsert x i tbl).
Proof.
  induction tbl as [|[y j] t IH]; simpl; [intros []|].
  intros H. destruct (Rlt_dec x y); [|destruct (Rlt_dec y x)]; simpl.
  - right. exact H.
  - destruct H as [H|H]; [left; exact H | right; apply IH; exact H].
  - exact H.
Qed.

Lemma ufold_keeps (ps tbl : list (R * nat)) (p : R * nat) :
  In p tbl -> In p (ufold ps tbl).
Proof.
  revert tbl. induction ps as [|[x i] ps IH]; intros tbl H; [exact H|].
  change (ufold ((x, i) :: ps) tbl) with (ufold ps (uinsert x i tbl)).
  apply IH. apply uinsert_keeps. exact H.
Qed.

Lemma uinsert_at_end (x : R) (i : nat) (tbl : list (R * nat)) :
  Forall (fun p => fst p < x) tbl -> uinsert x i tbl = tbl ++ [(x, i)].
Proof.
  induction 1 as [|[y j] t Hy Hall IH]; simpl; [reflexivity|].
  simpl in Hy. destruct (Rlt_dec x y); [lra|].
  destruct (Rlt_dec y x); [|lra]. rewrite IH. reflexivity.
Qed.

(** On a strictly increasing array nothing moves. *)
Lemma ufold_sorted (l : list R) :
  StronglySorted Rlt l ->
  forall s tbl,
    (forall p x, In p tbl -> In x l -> fst p < x) ->
    ufold (combine l (seq s (length l))) tbl = tbl ++ combine l (seq s (length l)).
Proof.
  induction 1 as [|a t Hs IH Hall]; intros s tbl Hlt.
  - simpl. rewrite app_nil_r. reflexivity.
  - cbn [length seq combine].
    change (ufold ((a, s) :: combine t (seq (S s) (length t))) tbl)
      with (ufold (combine t (seq (S s) (length t))) (uinsert a s tbl)).
    rewrite uinsert_at_end
      by (apply Forall_forall; intros p Hp; apply (Hlt p a Hp); left; reflexivity).
    rewrite IH.
    + rewrite <- app_assoc. reflexivity.
    + intros p x Hp Hx. apply in_app_or in Hp. destruct Hp as [Hp|[<-|[]]].
      * apply (Hlt p x Hp). right. exact Hx.
      * simpl. rewrite Forall_forall in Hall. apply Hall. exact Hx.
Qed.

Lemma map_snd_combine_seq (l : list R) (s : nat) :
  map snd (combine l (seq s (length l))) = seq s (length l).
Proof.
  revert s. induction l as [|y t IH]; intros s; simpl; [reflexivity|].
  f_equal. apply IH.
Qed.

Lemma combine_seq_app (l1 l2 : list R) (s : nat) :
  combine (l1 ++ l2) (seq s (length (l1 ++ l2)))
  = combine l1 (seq s (length l1)) ++ combine l2 (seq (s + length l1) (length l2)).
Proof.
  revert s. induction l1 as [|a t IH]; intros s.
  - simpl. rewrite Nat.add_0_r. reflexivity.
  - cbn [app length seq combine]. f_equal. rewrite IH.
    replace (S s + length t)%nat with (s + S (length t))%nat by lia. reflexivity.
Qed.

Lemma take_arange {A : Type} (l1 l2 : list A) :
  np_take (l1 ++ l2) (seq (length l1) (length l2)) = Ok l2.
Proof.
  unfold np_take. revert l1. induction l2 as [|a t IH]; intros l1; [reflexivity|].
  cbn [length seq mapM].
  assert (Ha : py_index (l1 ++ a :: t) (length l1) = Ok a).
  { apply py_index_Ok. rewrite nth_error_app2 by lia. rewrite Nat.sub_diag. reflexivity. }
  rewrite Ha. cbn [bind].
  specialize (IH (l1 ++ [a])). rewrite <- app_assoc in IH. simpl in IH.
  rewrite length_app in IH. simpl in IH. rewrite Nat.add_1_r in IH.
  rewrite IH. reflexivity.
Qed.

Lemma mapM_nth_fwd {A B : Type} (f : A -> result B) (l : list A) (bs : list B) :
  mapM f l = Ok bs ->
  forall j a, nth_error l j = Some a ->
  exists b, nth_error bs j = Some b /\ f a = Ok b.
Proof.
  revert bs. induction l as [|x t IH]; simpl; intros bs H j a Hj.
  - destruct j; discriminate.
  - bind_inv H as b Hb. bind_inv H as bs' Hbs. injection H as <-.
    destruct j as [|j]; simpl in *.
    + injection Hj as <-. eauto.
    + eauto.
Qed.

(** X6. The merge keeps what is stored. When new frequencies are merged
    into strictly increasing frequencies with as many fields, every stored
    pair of frequency and field is in the result, also when the frequency
    comes again with another field: the first occurrence is the one kept. *)
Theorem merge_keeps_samples
    (freq : list R) (fEM : list complex) (new_f : list R) (new_fEM : list complex)
    (freq' : list R) (fEM' : list complex) :
  StronglySorted Rlt freq ->
  length fEM = length freq ->
  merge freq fEM new_f new_fEM = Ok (freq', fEM') ->
  forall j x e,
    nth_error freq j = Some x -> nth_error fEM j = Some e ->
    exists j', nth_error freq' j' = Some x /\ nth_error fEM' j' = Some e.
Proof.
  intros Hs Hlen Hm j x e Hx He.
  unfold merge, np_unique_index, utable in Hm.
  bind_inv Hm as es Hes. injection Hm as <- <-.
  rewrite combine_seq_app in Hes |- *.
  unfold ufold in Hes |- *. rewrite fold_left_app in Hes |- *.
  fold (ufold (combine freq (seq 0 (length freq))) []) in Hes |- *.
  rewrite (ufold_sorted freq Hs 0 []) in Hes |- * by (intros p y []).
  cbn [app] in Hes |- *.
  set (tbl := fold_left (fun tbl p => uinsert (fst p) (snd p) tbl)
                (combine new_f (seq (0 + length freq) (length new_f)))
                (combine freq (seq 0 (length freq)))) in *.
  assert (Hin : In (x, j) tbl).
  { apply (ufold_keeps _ _ (x, j)).
    assert (Hj : nth_error (seq 0 (length freq)) j = Some j).
    { assert (j < length freq)%nat by (apply nth_error_Some; congruence).
      rewrite nth_error_seq. destruct (Nat.ltb_spec j (length freq)); [reflexivity|lia]. }
    eapply nth_error_In. apply (nth_error_combine_Some _ _ _ _ _ Hx Hj). }
  apply In_nth_error in Hin. destruct Hin as [j' Hj'].
  exists j'. split.
  - rewrite nth_error_map, Hj'. reflexivity.
  - assert (Hai : nth_error (map snd tbl) j' = Some j)
      by (rewrite nth_error_map, Hj'; reflexivity).
    destruct (mapM_nth_fwd _ _ _ Hes j' j Hai) as (b & Hb & Hpb).
    apply py_index_Ok in Hpb.
    assert (j < length fEM)%nat by (apply nth_error_Some; congruence).
    rewrite nth_error_app1 in Hpb by lia. congruence.
Qed.

(** 10 Hz comes again with another field: the stored one stays. *)
Lemma merge_keeps_samples_witness :
  exists j', nth_error [1; 5; 10] j' = Some 10 /\
             nth_error [mkC 0 1; mkC 0 3; mkC 0 2] j' = Some (mkC 0 2).
Proof.
  apply (merge_keeps_samples [1; 10] [mkC 0 1; mkC 0 2] [10; 5] [mkC 0 9; mkC 0 3]
           [1; 5; 10] [mkC 0 1; mkC 0 3; mkC 0 2]) with (j := 1%nat).
  - repeat constructor; lra.
  - reflexivity.
  - unfold merge, np_unique_index, utable, ufold. cbn. rdec_eval. cbn. rdec_eval.
    cbn. rdec_eval. reflexivity.
  - reflexivity.
  - reflexivity.
Defined.

Lemma np_unique_index_sorted (l : list R) :
  StronglySorted Rlt l -> np_unique_index l = (l, seq 0 (length l)).
Proof.
  intros Hs. unfold np_unique_index, utable.
  rewrite (ufold_sorted l Hs 0 []) by (intros p x []).
  cbn [app]. rewrite map_fst_combine_seq, map_snd_combine_seq. reflexivity.
Qed.

Section MoreLoop.

Variable pchip_interpolate : list R -> list R -> R -> result R.
Variable dipole : list R -> list complex.
Variable tem : list complex -> list R -> list R.
Variable rtol : R.
Variable ri : list nat.

(** X7. The first pass stores the initial frequencies as they are. When
    the initial frequencies are strictly increasing and the model returns
    one field for each, a first pass that returns leaves these frequencies
    and these fields in the arrays, in the same order. *)
Theorem first_pass_stores_seed
    (seed req_freq : list R) (sfEM : list complex) (stEM : list R) (s' : loop_state) :
  StronglySorted Rlt seed ->
  length (dipole seed) = length seed ->
  loop_body pchip_interpolate dipole tem rtol ri (loop_init seed req_freq sfEM stEM)
    = Ok s' ->
  st_freq s' = seed /\ st_fEM s' = dipole seed.
Proof.
  intros Hs Hlen Hbody.
  destruct (loop_body_Ok _ _ _ _ _ _ _ Hbody)
    as (out & _ & _ & _ & _ & _ & _ & Hm & _).
  unfold loop_init, merge in Hm. cbn [st_freq st_fEM st_new_freq app] in Hm.
  rewrite (np_unique_index_sorted seed Hs) in Hm. cbn [app] in Hm.
  rewrite <- Hlen in Hm.
  pose proof (take_arange [] (dipole seed)) as Htake. cbn [app length] in Htake.
  rewrite Htake in Hm. cbn [bind] in Hm.
  injection Hm as <- <-. split; reflexivity.
Qed.

(** Frequencies stay in the array from pass to pass. *)
Lemma iterates_retain (s0 : loop_state) (n : nat) (s : loop_state) :
  iterates pchip_interpolate dipole tem rtol ri s0 n s ->
  (n = O -> s = s0) /\
  (n <> O ->
   (forall x, In x (st_freq s0) \/ In x (st_new_freq s0) -> In x (st_freq s)) /\
   exists s1 out,
     loop_body pchip_interpolate dipole tem rtol ri s1 = Ok s /\
     get_new_freq_full pchip_interpolate (st_freq s) (st_fEM s) rtol
                       (Some (st_req_freq s1)) = Ok out /\
     st_new_freq s = new_freq out).
Proof.
  induction 1 as [|n s s' Hit IH Hne Hbody].
  - split; [reflexivity | congruence].
  - split; [discriminate|]. intros _.
    destruct (loop_body_Ok _ _ _ _ _ s s' Hbody)
      as (out & _ & _ & _ & _ & _ & _ & Hm & Hout & Hnf & _).
    destruct (merge_spec _ _ _ _ _ _ Hm) as (_ & _ & _ & _ & _ & Hin).
    split; [|exists s, out; auto].
    intros x Hx. apply Hin. apply in_or_app.
    destruct IH as [IH0 IHS]. destruct n as [|n].
    + rewrite (IH0 eq_refl). exact Hx.
    + left. destruct (IHS ltac:(discriminate)) as [Hkeep _]. apply Hkeep. exact Hx.
Qed.

(** X8. What the loop has reached when it ends. When the loop, started
    with some initial frequency, leaves after finitely many passes, the
    frequencies are strictly increasing with one field each, they hold
    every initial frequency, nothing is left to evaluate, and the last call
    of [get_new_freq], which was on these arrays, found no error above
    [rtol]. *)
Theorem loop_exit_within_tolerance
    (seed req_freq : list R) (sfEM : list complex) (stEM : list R)
    (fuel : nat) (s' : loop_state) :
  seed <> [] ->
  run_loop pchip_interpolate dipole tem rtol ri fuel
           (loop_init seed req_freq sfEM stEM) = Ok (Some s') ->
  StronglySorted Rlt (st_freq s') /\
  length (st_fEM s') = length (st_freq s') /\
  (forall x, In x seed -> In x (st_freq s')) /\
  st_new_freq s' = [] /\
  exists rq out,
    get_new_freq_full pchip_interpolate (st_freq s') (st_fEM s') rtol (Some rq)
      = Ok out /\
    new_freq out = [] /\
    forall j, ~ exceeds_at (error out) rtol j.
Proof.
  intros Hseed Hrun.
  destruct (run_loop_iterates _ _ _ _ _ _ fuel 0 _ s'
              (iterates_0 _ _ _ _ _ _) Hrun) as (m & Hit & Hnil).
  destruct (iterates_keep _ _ _ _ _ _ _ _ _ _ _ Hit) as (Hs & Hl & _ & _).
  destruct (iterates_retain _ _ _ Hit) as [H0 HS].
  destruct m as [|m].
  { exfalso. rewrite (H0 eq_refl) in Hnil. simpl in Hnil. contradiction. }
  destruct (HS ltac:(discriminate)) as (Hkeep & s1 & out & _ & Hout & Hnf).
  split; [exact Hs|]. split; [exact Hl|]. split.
  { intros x Hx. apply Hkeep. right. exact Hx. }
  split; [exact Hnil|].
  exists (st_req_freq s1), out. split; [exact Hout|].
  assert (Hn : new_freq out = []) by congruence.
  split; [exact Hn|].
  intros j Hj. apply (ierr_exceeds _ _ _ _ _ _ Hout) in Hj.
  destruct (get_new_freq_full_Ok _ _ _ _ _ _ Hout) as (_ & _ & _ & _ & _ & _ & Hnew).
  destruct Hnew as [[Hi _]|[_ (l & _ & Hc)]]; [|congruence].
  rewrite Hi in Hj. destruct Hj.
Qed.

(** X9. Frequencies stay positive. When the initial frequencies are
    positive, then after any number of passes every frequency in the array
    is positive, and so is the frequency proposed for the next pass. *)
Theorem loop_frequencies_positive
    (seed req_freq : list R) (sfEM : list complex) (stEM : list R)
    (n : nat) (s : loop_state) :
  Forall (fun x => 0 < x) seed ->
  iterates pchip_interpolate dipole tem rtol ri
           (loop_init seed req_freq sfEM stEM) n s ->
  Forall (fun x => 0 < x) (st_freq s) /\
  Forall (fun x => 0 < x) (st_new_freq s).
Proof.
  intros Hseed. induction 1 as [|n s s' Hit IH Hne Hbody].
  - split; [constructor | exact Hseed].
  - destruct IH as [IHf IHn].
    destruct (loop_body_Ok _ _ _ _ _ s s' Hbody)
      as (out & _ & _ & _ & _ & _ & _ & Hm & Hout & Hnf & _).
    destruct (merge_spec _ _ _ _ _ _ Hm) as (_ & _ & _ & _ & _ & Hin).
    split.
    + apply Forall_forall. intros x Hx. apply Hin in Hx. apply in_app_or in Hx.
      rewrite Forall_forall in IHf, IHn. destruct Hx; auto.
    + rewrite Hnf.
      destruct (get_new_freq_full_Ok _ _ _ _ _ _ Hout) as (_ & _ & _ & _ & _ & _ & Hnew).
      destruct Hnew as [[_ ->]|[_ (l & _ & ->)]]; [constructor|].
      constructor; [|constructor]. unfold pow10. apply exp_pos.
Qed.

End MoreLoop.

Lemma first_pass_stores_seed_witness :
  [1; 10] = [1; 10] /\ [mkC 0 1; mkC 0 1] = dipole_unit [1; 10].
Proof.
  apply (first_pass_stores_seed interp_zero dipole_unit tem_imag 0.1 [0%nat]
           [1; 10] [5] [C0] [0]
           (mkSt [1; 10] [mkC 0 1; mkC 0 1] [pow10 (log10 1 - 0.5)] [5] [C0] [0])).
  - repeat constructor; lra.
  - reflexivity.
  - exact run_first_pass.
Defined.

(** A pass on a real field: every error is 0 and nothing is proposed. *)
Lemma run_converging_pass :
  loop_body interp_zero dipole_real tem_imag 0.1 [0%nat]
            (loop_init [1; 10] [5] [C0] [0])
  = Ok (mkSt [1; 10] [mkC 1 0; mkC 1 0] [] [5] [C0] [0]).
Proof.
  unfold loop_body, loop_init, merge, np_unique_index, utable, ufold, dipole_real.
  cbn. rdec_eval. cbn.
  rewrite get_new_freq_full_zero_grid by (reflexivity || discriminate).
  unfold rel_error, py_max, C0. cbn [map combine fst snd im re fold_left].
  rewrite !Cabs_real. rabs_eval. rmax_eval. cbn [bind map].
  rewrite !np_err_pos by lra. rabs_eval.
  replace (0 / 1) with 0 by lra.
  cbn. rdec_eval. reflexivity.
Qed.

Lemma run_converging_loop :
  run_loop interp_zero dipole_real tem_imag 0.1 [0%nat] 1
           (loop_init [1; 10] [5] [C0] [0])
  = Ok (Some (mkSt [1; 10] [mkC 1 0; mkC 1 0] [] [5] [C0] [0])).
Proof.
  cbn [run_loop loop_init st_new_freq]. rewrite run_converging_pass. reflexivity.
Qed.

Lemma loop_exit_within_tolerance_witness :
  StronglySorted Rlt [1; 10] /\
  length [mkC 1 0; mkC 1 0] = length [1; 10] /\
  (forall x, In x [1; 10] -> In x [1; 10]) /\
  @nil R = [] /\
  exists rq out,
    get_new_freq_full interp_zero [1; 10] [mkC 1 0; mkC 1 0] 0.1 (Some rq) = Ok out /\
    new_freq out = [] /\
    forall j, ~ exceeds_at (error out) 0.1 j.
Proof.
  apply (loop_exit_within_tolerance interp_zero dipole_real tem_imag 0.1 [0%nat]
           [1; 10] [5] [C0] [0] 1
           (mkSt [1; 10] [mkC 1 0; mkC 1 0] [] [5] [C0] [0])).
  - discriminate.
  - exact run_converging_loop.
Defined.

Lemma loop_frequencies_positive_witness :
  Forall (fun x => 0 < x) [1; 10] /\
  Forall (fun x => 0 < x) [pow10 (log10 1 - 0.5)].
Proof.
  apply (loop_frequencies_positive interp_zero dipole_unit tem_imag 0.1 [0%nat]
           [1; 10] [5] [C0] [0] 1
           (mkSt [1; 10] [mkC 0 1; mkC 0 1] [pow10 (log10 1 - 0.5)] [5] [C0] [0])).
  - repeat constructor; lra.
  - apply (iterates_S _ _ _ _ _ _ 0 (loop_init [1; 10] [5] [C0] [0])).
    + apply iterates_0.
    + discriminate.
    + exact run_first_pass.
Defined.

(** * The initial frequencies from peaks *)








(** * The plots *)

Lemma np_zip_with_same_length {A B C : Type} (f : A -> B -> C)
    (a : list A) (b : list B) :
  length a = length b ->
  np_zip_with f a b = Ok (map (fun p => f (fst p) (snd p)) (combine a b)).
Proof.
  intros H. unfold np_zip_with.
  destruct a as [|x [|x' a']], b as [|y [|y' b']];
    try discriminate H; try reflexivity.
  cbn [length] in H. injection H as H.
  cbn [length Nat.eqb]. rewrite H, Nat.eqb_refl. reflexivity.
Qed.

Lemma nth_error_combine {A B : Type} (a : list A) (b : list B) :
  forall i x y,
    nth_error a i = Some x -> nth_error b i = Some y ->
    nth_error (combine a b) i = Some (x, y).
Proof.
  revert b. induction a as [|a0 a IH]; intros b i x y Ha Hb.
  - destruct i; discriminate.
  - destruct b as [|b0 b]; [destruct i; discriminate|].
    destruct i as [|i]; cbn in *; [congruence|].
    apply IH; assumption.
Qed.

(** One displayed error, by the interpolated value [x] and the required
    value [r]. *)
Lemma pct_error_cases (x r : R) :
  (x = 0 /\ r = 0 /\ pct_error x r = NaN) \/
  (x <> 0 /\ r = 0 /\ pct_error x r = Fin 100) \/
  (r <> 0 /\
   pct_error x r = Fin (Rmin (Rmax (100 * Rabs ((x - r) / r)) 0.01) 100) /\
   0.01 <= Rmin (Rmax (100 * Rabs ((x - r) / r)) 0.01) 100 <= 100).
Proof.
  unfold pct_error, np_div.
  destruct (Req_dec_T r 0) as [->|Hr].
  - destruct (Req_dec_T (x - 0) 0) as [Hx|Hx].
    + left. split; [lra|]. split; reflexivity.
    + right; left. split; [lra|]. split; [reflexivity|].
      destruct (Rlt_dec 0 (x - 0)); reflexivity.
  - right; right. split; [exact Hr|]. split; [reflexivity|].
    unfold Rmin, Rmax.
    destruct (Rle_dec (100 * Rabs ((x - r) / r)) 0.01);
      match goal with |- context [Rle_dec ?a ?b] => destruct (Rle_dec a b) end; lra.
Qed.

(** X11. The displayed errors stay in the plot's range. With one
    interpolated value for each required value, [f_error] has one entry for
    each of them, and entry [i] is decided by its own pair, the parts [x] of
    [f_int[i]] and [r] of [f_req[i]] that [reim] selects: it is nan when
    both are 0; it is 100 when [r] is 0 and [x] is not (the quotient is
    infinite and clipped); and for [r <> 0] it is [100 |x - r| / |r|]
    clipped to the range from 0.01 to 100. So an entry is never infinite,
    and it is nan only where both values are 0. *)
Theorem f_error_in_range (signal : Z) (f_int f_req : list complex) :
  length f_int = length f_req ->
  exists errs,
    f_error signal f_int f_req = Ok errs /\
    length errs = length f_req /\
    forall i zi zr,
      nth_error f_int i = Some zi -> nth_error f_req i = Some zr ->
      exists e,
        nth_error errs i = Some e /\
        ((reim signal zi = 0 /\ reim signal zr = 0 /\ e = NaN) \/
         (reim signal zi <> 0 /\ reim signal zr = 0 /\ e = Fin 100) \/
         (reim signal zr <> 0 /\
          e = Fin (Rmin (Rmax (100 * Rabs ((reim signal zi - reim signal zr)
                                             / reim signal zr)) 0.01) 100) /\
          exists v, e = Fin v /\ 0.01 <= v <= 100)).
Proof.
  intros Hlen. unfold f_error.
  rewrite np_zip_with_same_length by (rewrite !length_map; exact Hlen).
  eexists. split; [reflexivity|]. split.
  - rewrite length_map, length_combine, !length_map, Hlen. apply Nat.min_id.
  - intros i zi zr Hi Hr.
    exists (pct_error (reim signal zi) (reim signal zr)). split.
    + apply (map_nth_error (fun p => pct_error (fst p) (snd p)) i
                           (combine (map (reim signal) f_int) (map (reim signal) f_req))
                           (d := (reim signal zi, reim signal zr))).
      apply nth_error_combine; apply map_nth_error; assumption.
    + destruct (pct_error_cases (reim signal zi) (reim signal zr))
        as [(Hx & Hr0 & He)|[(Hx & Hr0 & He)|(Hr0 & He & Hv)]].
      * left. auto.
      * right; left. auto.
      * right; right. split; [exact Hr0|]. split; [exact He|].
        eexists. split; [exact He|exact Hv].
Qed.

(** Two required values that are 0: the entry with the interpolated value 0
    is nan, the other one is 100. *)
Lemma f_error_in_range_witness :
  exists errs,
    f_error 0 [C0; mkC 0 1] [C0; C0] = Ok errs /\
    length errs = 2%nat /\
    forall i zi zr,
      nth_error [C0; mkC 0 1] i = Some zi -> nth_error [C0; C0] i = Some zr ->
      exists e,
        nth_error errs i = Some e /\
        ((reim 0 zi = 0 /\ reim 0 zr = 0 /\ e = NaN) \/
         (reim 0 zi <> 0 /\ reim 0 zr = 0 /\ e = Fin 100) \/
         (reim 0 zr <> 0 /\
          e = Fin (Rmin (Rmax (100 * Rabs ((reim 0 zi - reim 0 zr) / reim 0 zr)) 0.01) 100) /\
          exists v, e = Fin v /\ 0.01 <= v <= 100)).
Proof.
  apply (f_error_in_range 0 [C0; mkC 0 1] [C0; C0]).
  reflexivity.
Defined.

Lemma fold_Rmin_spec (t : list R) :
  forall x, (fold_left Rmin t x = x \/ In (fold_left Rmin t x) t) /\
            fold_left Rmin t x <= x /\
            Forall (fun y => fold_left Rmin t x <= y) t.
Proof.
  induction t as [|y t IH]; intros x; simpl.
  - split; [left; reflexivity|]. split; [lra | constructor].
  - destruct (IH (Rmin x y)) as (Hin & Hle & Hall).
    pose proof (Rmin_l x y). pose proof (Rmin_r x y).
    split; [|split].
    + destruct Hin as [Heq|Hin]; [|right; right; exact Hin].
      rewrite Heq. unfold Rmin. destruct (Rle_dec x y); [left|right; left]; reflexivity.
    + lra.
    + constructor; [lra | exact Hall].
Qed.

Lemma py_min_is_min (l : list R) (m : R) : py_min l = Ok m -> is_min m l.
Proof.
  destruct l as [|x t]; [discriminate|]. simpl. intros H. injection H as <-.
  destruct (fold_Rmin_spec t x) as (Hin & Hle & Hall). split.
  - destruct Hin as [->|Hin]; [left; reflexivity | right; exact Hin].
  - constructor; assumption.
Qed.

(** X12. The limits of the linear time-domain plot. The limits are there
    for every non-empty signal, the lower one not above the upper one, and
    a signal without negative values lies between them; an empty signal
    raises a [ValueError]. *)
Theorem ylim_lin_encloses (t : list R) :
  (t = [] -> ylim_lin t = Raise ValueError) /\
  (t <> [] ->
   exists lo hi,
     ylim_lin t = Ok (lo, hi) /\
     lo <= hi /\
     (Forall (fun x => 0 <= x) t -> Forall (fun x => lo <= x <= hi) t)).
Proof.
  split; [intros ->; reflexivity|].
  intros Hne. unfold ylim_lin.
  destruct (py_max t) as [mx|e] eqn:Hmx; [|destruct t; [congruence | discriminate]].
  destruct (py_min t) as [mn|e] eqn:Hmn; [|destruct t; [congruence | discriminate]].
  cbn [bind]. do 2 eexists. split; [reflexivity|].
  destruct (py_max_is_max _ _ Hmx) as [Hinx Hallx].
  destruct (py_min_is_min _ _ Hmn) as [Hinn Halln].
  rewrite Forall_forall in Hallx, Halln.
  assert (Hmm : mn <= mx) by (apply Hallx; exact Hinn).
  pose proof (Rmin_l (- mx / 20) (0.9 * mn)). pose proof (Rmin_r (- mx / 20) (0.9 * mn)).
  pose proof (Rmax_l (- mn / 20) (1.1 * mx)). pose proof (Rmax_r (- mn / 20) (1.1 * mx)).
  split.
  - destruct (Rle_dec 0 mn); lra.
  - intros Hpos. rewrite Forall_forall in Hpos. apply Forall_forall. intros x Hx.
    pose proof (Hallx x Hx). pose proof (Halln x Hx).
    pose proof (Hpos mn Hinn). lra.
Qed.

(** * The keyword arguments *)

Lemma dict_del_In (d : pydict) (k : String.string) (e : String.string * pyval) :
  In e (dict_del d k) <-> In e d /\ fst e <> k.
Proof.
  unfold dict_del. rewrite filter_In. split; intros [H1 H2]; split; auto.
  - intros Heq. rewrite Heq, String.eqb_refl in H2. discriminate.
  - apply negb_true_iff. apply String.eqb_neq. exact H2.
Qed.

Lemma dict_get_del_other (d : pydict) (k k' : String.string) :
  k <> k' -> dict_get (dict_del d k') k = dict_get d k.
Proof.
  intros Hne. unfold dict_get, dict_del. f_equal.
  induction d as [|[key v] t IH]; simpl; [reflexivity|].
  destruct (String.eqb_spec key k') as [->|Hk']; simpl.
  - destruct (String.eqb_spec k' k) as [Heq|_]; [congruence | exact IH].
  - destruct (String.eqb_spec key k); [reflexivity | exact IH].
Qed.

Lemma dict_del_absent (d : pydict) (k : String.string) :
  dict_get d k = None -> dict_del d k = d.
Proof.
  unfold dict_get, dict_del. induction d as [|[key v] t IH]; simpl; [reflexivity|].
  destruct (String.eqb_spec key k); simpl; [discriminate|].
  intros H. f_equal. apply IH. exact H.
Qed.

Lemma dict_pop_eq (d : pydict) (k : String.string) (default : pyval) :
  dict_pop d k default = (dict_get_default d k default, dict_del d k).
Proof.
  unfold dict_pop, dict_get_default.
  destruct (dict_get d k) eqn:E; [reflexivity|].
  rewrite dict_del_absent by exact E. reflexivity.
Qed.

Open Scope string_scope.

(** X13. The keywords of [InteractiveFrequency]. A call whose keywords are
    all among the nine known ones gets past the check of line 123 with each
    value taken from its keyword, or from the default when the keyword is
    not given; a call with any other keyword raises the [TypeError], which
    names that keyword and only unknown ones. *)
Theorem init_kwargs_spec (kwargs : pydict) :
  (Forall (fun e => In (fst e) init_keywords) kwargs ->
   init_kwargs kwargs
   = InitOk (mkInit (dict_get_default kwargs "fmin" (PyFloat 1e-3))
                    (dict_get_default kwargs "fmax" (PyFloat 1e1))
                    (dict_get_default kwargs "off" (PyInt 5000))
                    (dict_get_default kwargs "ft" (PyStr "sin"))
                    (dict_get_default kwargs "ftarg" PyNone)
                    (dict_get_default kwargs "pts_per_dec" (PyInt 5))
                    (dict_get_default kwargs "linlog" (PyStr "linear"))
                    (dict_get_default kwargs "xtfact" (PyInt 1))
                    (dict_get_default kwargs "verb" (PyInt 1)))) /\
  (forall e, In e kwargs -> ~ In (fst e) init_keywords ->
   exists unexpected,
     init_kwargs kwargs = InitTypeError unexpected /\
     In e unexpected /\
     Forall (fun e' => In e' kwargs /\ ~ In (fst e') init_keywords) unexpected).
Proof.
  unfold init_kwargs. rewrite !dict_pop_eq.
  unfold dict_get_default.
  rewrite !dict_get_del_other by discriminate.
  set (left_over :=
         dict_del (dict_del (dict_del (dict_del (dict_del (dict_del (dict_del
           (dict_del (dict_del kwargs "fmin") "fmax") "off") "ft") "ftarg")
           "pts_per_dec") "linlog") "xtfact") "verb").
  assert (Hleft : forall e, In e left_over <->
                            In e kwargs /\ ~ In (fst e) init_keywords).
  { intros e. unfold left_over. rewrite !dict_del_In. unfold init_keywords. simpl.
    intuition congruence. }
  split.
  - intros Hall. destruct left_over as [|e t]; [reflexivity|]. exfalso.
    destruct (proj1 (Hleft e) (or_introl eq_refl)) as [Hin Hno].
    rewrite Forall_forall in Hall. apply Hno, Hall, Hin.
  - intros e Hin Hno.
    assert (He : In e left_over) by (apply Hleft; split; assumption).
    destruct left_over as [|e0 t] eqn:E; [destruct He|].
    eexists. split; [reflexivity|]. split; [exact He|].
    apply Forall_forall. intros e' He'. apply Hleft. exact He'.
Qed.

Close Scope string_scope.

(** * The tolerance *)

Lemma np_gt_antitone (e : npfloat) (rtol rtol' : R) :
  rtol <= rtol' -> np_gt e rtol' = true -> np_gt e rtol = true.
Proof.
  intros Hle. destruct e as [a| | |]; simpl; try (intros; assumption).
  destruct (Rlt_dec rtol' a), (Rlt_dec rtol a); intros H;
    try reflexivity; try discriminate. lra.
Qed.

Section Tolerance.

Variable pchip_interpolate : list R -> list R -> R -> result R.

(** X14. A looser tolerance asks for no more. When a call returns, the call
    with a larger [rtol] on the same arrays returns too, with the same
    estimates and errors; its failing samples are among those of the first
    call, and when the first call proposes no frequency neither does it. *)
Theorem looser_tolerance_fails_less
    (freq : list R) (field : list complex) (rtol rtol' : R)
    (req_freq : option (list R)) (out : output) :
  rtol <= rtol' ->
  get_new_freq_full pchip_interpolate freq field rtol req_freq = Ok out ->
  exists out',
    get_new_freq_full pchip_interpolate freq field rtol' req_freq = Ok out' /\
    i_field out' = i_field out /\
    error out' = error out /\
    (forall j, In j (ierr out') -> In j (ierr out)) /\
    (new_freq out = [] -> new_freq out' = []).
Proof.
  intros Hle Hout.
  destruct (get_new_freq_full_Ok _ _ _ _ _ _ Hout)
    as (Hlen & _ & _ & _ & _ & _ & Hnew).
  pose proof Hout as Hrun. unfold get_new_freq_full in Hrun.
  bind_inv Hrun as st Hloop. destruct st as [i_fld i_fld2].
  bind_inv Hrun as err Herr. bind_inv Hrun as ier Hier. bind_inv Hrun as nf Hnf.
  injection Hrun as <-. cbn [new_freq ierr] in Hnew.
  assert (Hfield : field <> []).
  { intros ->. unfold rel_error in Herr. simpl in Herr. discriminate. }
  destruct (get_new_freq_full_returns pchip_interpolate freq field rtol' req_freq
              i_fld i_fld2 Hlen Hfield Hloop) as (out' & Hout' & Hi').
  exists out'. split; [exact Hout'|]. cbn [i_field error ierr new_freq].
  split; [exact Hi'|].
  destruct (get_new_freq_full_Ok _ _ _ _ _ _ Hout')
    as (_ & _ & _ & _ & Herr' & Hier' & Hnew').
  rewrite Hi' in Herr'.
  assert (Heq : error out' = err) by congruence.
  split; [exact Heq|].
  apply np_mask_arange in Hier. destruct Hier as [_ ->].
  assert (Hsub : forall j, In j (ierr out') ->
                           In j (masked 0 (map (fun e => np_gt e rtol) err))).
  { intros j Hj. rewrite Hier', Heq in Hj.
    apply masked_exceeds in Hj. apply masked_exceeds.
    destruct Hj as (e & He & Hgt). exists e. split; [exact He|].
    exact (np_gt_antitone e rtol rtol' Hle Hgt). }
  split; [exact Hsub|].
  intros Hnil.
  destruct Hnew as [[Hi _]|[_ (l & _ & Hc)]]; [|congruence].
  destruct Hnew' as [[_ Hn]|[Hne _]]; [exact Hn|].
  exfalso. destruct (ierr out') as [|k rest]; [congruence|].
  specialize (Hsub k (or_introl eq_refl)). rewrite Hi in Hsub. destruct Hsub.
Qed.

End Tolerance.

Lemma looser_tolerance_fails_less_witness :
  exists out',
    get_new_freq_full interp_zero [1; 10; 100] [C0; mkC 0 1; C0] 0.5 None = Ok out' /\
    i_field out' = [C0; C0; C0] /\
    error out' = [Fin 0; Fin 1; Fin 0] /\
    (forall j, In j (ierr out') -> In j [1%nat]) /\
    ([pow10 (log10 10 + (log10 100 - log10 10) / 2)] = [] -> new_freq out' = []).
Proof.
  apply (looser_tolerance_fails_less interp_zero [1; 10; 100] [C0; mkC 0 1; C0]
           0.1 0.5 None
           (mkOut [pow10 (log10 10 + (log10 100 - log10 10) / 2)] [C0; C0; C0]
                  [Fin 0; Fin 1; Fin 0] [1%nat] None)).
  - lra.
  - exact run_bisection.
Defined.
